(** * The global audio controller of the portfolio site

    A shallow embedding of [src/components/audioController.js]: the
    playback state singleton, its queue operations, the waveform cache
    and the [getState] snapshot, followed by the properties the design
    document states about them.

    JavaScript numbers that the controller uses as indices and counters
    are integers ([Z]; they stay in the range where JavaScript numbers are
    exact); playback times and amplitudes are rationals ([Q]), which the
    controller only copies, compares with a constant or resets.
    The DOM side of the mini-player ([updateMiniPlayer], [renderQueueList],
    the subscriber fan-out) reads the state and never writes it, so it is
    left out of the state transformers below. *)

From Stdlib Require Import QArith Qround Qabs.
From stdpp Require Import gmap strings pretty list sorting.

Set Default Proof Using "Type".
Local Open Scope Z_scope.

(** ** JavaScript array primitives used by the controller *)

Module JsArray.

Section Ops.
Context {A : Type}.

(** [arr[i]] for an integer [i]: [None] stands for [undefined]. *)
Definition get (arr : list A) (i : Z) : option A :=
  if i <? 0 then None else arr !! Z.to_nat i.

(** The clamping of a relative index that [splice] and [slice] share:
    a negative index counts from the end, everything is clamped to
    [0 .. len]. *)
Definition relative (len i : Z) : Z :=
  if i <? 0 then Z.max (len + i) 0 else Z.min i len.

(** [arr.splice(start, deleteCount, ...items)]: the removed elements
    and the array afterwards. *)
Definition splice (arr : list A) (start deleteCount : Z) (items : list A)
  : list A * list A :=
  let len := Z.of_nat (length arr) in
  let s := relative len start in
  let dc := Z.min (Z.max deleteCount 0) (len - s) in
  (take (Z.to_nat dc) (drop (Z.to_nat s) arr),
   take (Z.to_nat s) arr ++ items ++ drop (Z.to_nat (s + dc)) arr).

(** [arr.slice(start, end)] and [arr.slice(start)]. *)
Definition slice (arr : list A) (start stop : Z) : list A :=
  let len := Z.of_nat (length arr) in
  let k := relative len start in
  let final := relative len stop in
  take (Z.to_nat (final - k)) (drop (Z.to_nat k) arr).

Definition slice_from (arr : list A) (start : Z) : list A :=
  slice arr start (Z.of_nat (length arr)).

(** [arr.filter((_, i) => i !== k)]. *)
Definition filter_index_ne (arr : list A) (k : Z) : list A :=
  List.map snd
    (List.filter (fun p => negb (fst p =? k))
                 (imap (fun i x => (Z.of_nat i, x)) arr)).

(** The destructuring swap of two cells, [arr[i]] with [arr[j]]: the
    right-hand side is read first, then [arr[i]] and [arr[j]] are
    written in that order.  The shuffle only calls it with both indices
    inside the array; outside (where JavaScript would grow the array
    with holes) the list is returned as it is. *)
Definition swap (arr : list A) (i j : Z) : list A :=
  match get arr i, get arr j with
  | Some a, Some b => <[Z.to_nat j := a]> (<[Z.to_nat i := b]> arr)
  | _, _ => arr
  end.
End Ops.

End JsArray.

(** ** The controller state and its operations *)

Module Controller.
Import JsArray.

(** Track and queue-item objects are duck-typed records.  A field that an
    object does not carry (or that is [null]) is [None]: a track handed
    over by a playlist view has [src], [title] and [index]; the queue
    adds [originalIndex] and [id]; [currentTrack] adds [playlistId],
    [sourceRoute], [peaks] and [duration]. *)
Record Track := mkTrack {
  t_src : string;
  t_title : string;
  t_index : option Z;
  t_originalIndex : option Z;
  t_id : option Z;
  t_playlistId : option string;
  t_sourceRoute : option string;
  t_peaks : option (list Q);
  t_duration : option Q
}.

(** The part of the platform's media element that the controller reads
    and writes.  [a_duration = None] is the [NaN] of an element whose
    metadata is not loaded. *)
Record Audio := mkAudio {
  a_src : string;
  currentTime : Q;
  a_duration : option Q;
  paused : bool
}.

(** A registered playlist view; its render callback only draws. *)
Record Playlist := mkPlaylist {
  tracks : list Track;
  elementId : option string
}.

(** The [state] singleton together with the module-level counter
    [queueIdCounter].  Two fields are not in the source and record the
    history of a run: [issuedIds] lists every value that
    [++queueIdCounter] has produced, oldest first, and [randomCalls]
    counts the calls of [Math.random] made so far. *)
Record State := mkState {
  audio : Audio;
  currentTrack : option Track;
  isPlaying : bool;
  miniPlayerVisible : bool;
  playlists : gmap string Playlist;
  queue : list Track;
  queueIndex : Z;
  queueExpanded : bool;
  shuffle : bool;
  loop : bool;
  queueIdCounter : Z;
  issuedIds : list Z;
  randomCalls : nat
}.

Definition set_audio (a : Audio) (st : State) : State :=
  mkState a (currentTrack st) (isPlaying st) (miniPlayerVisible st)
    (playlists st) (queue st) (queueIndex st) (queueExpanded st)
    (shuffle st) (loop st) (queueIdCounter st) (issuedIds st) (randomCalls st).
Definition set_currentTrack (t : option Track) (st : State) : State :=
  mkState (audio st) t (isPlaying st) (miniPlayerVisible st)
    (playlists st) (queue st) (queueIndex st) (queueExpanded st)
    (shuffle st) (loop st) (queueIdCounter st) (issuedIds st) (randomCalls st).
Definition set_isPlaying (b : bool) (st : State) : State :=
  mkState (audio st) (currentTrack st) b (miniPlayerVisible st)
    (playlists st) (queue st) (queueIndex st) (queueExpanded st)
    (shuffle st) (loop st) (queueIdCounter st) (issuedIds st) (randomCalls st).
Definition set_miniPlayerVisible (b : bool) (st : State) : State :=
  mkState (audio st) (currentTrack st) (isPlaying st) b
    (playlists st) (queue st) (queueIndex st) (queueExpanded st)
    (shuffle st) (loop st) (queueIdCounter st) (issuedIds st) (randomCalls st).
Definition set_playlists (m : gmap string Playlist) (st : State) : State :=
  mkState (audio st) (currentTrack st) (isPlaying st) (miniPlayerVisible st)
    m (queue st) (queueIndex st) (queueExpanded st)
    (shuffle st) (loop st) (queueIdCounter st) (issuedIds st) (randomCalls st).
Definition set_queue (q : list Track) (st : State) : State :=
  mkState (audio st) (currentTrack st) (isPlaying st) (miniPlayerVisible st)
    (playlists st) q (queueIndex st) (queueExpanded st)
    (shuffle st) (loop st) (queueIdCounter st) (issuedIds st) (randomCalls st).
Definition set_queueIndex (i : Z) (st : State) : State :=
  mkState (audio st) (currentTrack st) (isPlaying st) (miniPlayerVisible st)
    (playlists st) (queue st) i (queueExpanded st)
    (shuffle st) (loop st) (queueIdCounter st) (issuedIds st) (randomCalls st).
Definition set_queueExpanded (b : bool) (st : State) : State :=
  mkState (audio st) (currentTrack st) (isPlaying st) (miniPlayerVisible st)
    (playlists st) (queue st) (queueIndex st) b
    (shuffle st) (loop st) (queueIdCounter st) (issuedIds st) (randomCalls st).
Definition set_shuffle (b : bool) (st : State) : State :=
  mkState (audio st) (currentTrack st) (isPlaying st) (miniPlayerVisible st)
    (playlists st) (queue st) (queueIndex st) (queueExpanded st)
    b (loop st) (queueIdCounter st) (issuedIds st) (randomCalls st).
Definition set_loop (b : bool) (st : State) : State :=
  mkState (audio st) (currentTrack st) (isPlaying st) (miniPlayerVisible st)
    (playlists st) (queue st) (queueIndex st) (queueExpanded st)
    (shuffle st) b (queueIdCounter st) (issuedIds st) (randomCalls st).
Definition set_counter (c : Z) (ids : list Z) (st : State) : State :=
  mkState (audio st) (currentTrack st) (isPlaying st) (miniPlayerVisible st)
    (playlists st) (queue st) (queueIndex st) (queueExpanded st)
    (shuffle st) (loop st) c (issuedIds st ++ ids) (randomCalls st).
Definition add_randomCalls (n : nat) (st : State) : State :=
  mkState (audio st) (currentTrack st) (isPlaying st) (miniPlayerVisible st)
    (playlists st) (queue st) (queueIndex st) (queueExpanded st)
    (shuffle st) (loop st) (queueIdCounter st) (issuedIds st)
    (randomCalls st + n)%nat.

Definition qlen (st : State) : Z := Z.of_nat (length (queue st)).

(** The state at module load, after [initAudioController] has created the
    media element. *)
Definition init : State :=
  mkState (mkAudio "" 0 None true) None false false ∅ [] 0 false false false
          0 [] 0%nat.

(** *** The media element *)

(** Assigning [audio.src] loads a new resource: the position returns to
    the start and the duration is unknown until its metadata arrives. *)
Definition audio_set_src (s : string) (a : Audio) : Audio :=
  mkAudio s 0 None (paused a).
Definition audio_play (a : Audio) : Audio :=
  mkAudio (a_src a) (currentTime a) (a_duration a) false.
Definition audio_pause (a : Audio) : Audio :=
  mkAudio (a_src a) (currentTime a) (a_duration a) true.
Definition audio_set_currentTime (t : Q) (a : Audio) : Audio :=
  mkAudio (a_src a) t (a_duration a) (paused a).
Definition audio_set_duration (d : option Q) (a : Audio) : Audio :=
  mkAudio (a_src a) (currentTime a) d (paused a).

(** [x > y] on times. *)
Definition Qgtb (x y : Q) : bool := negb (Qle_bool x y).

(** Truthiness of [audio.duration]: neither [NaN] nor zero. *)
Definition duration_known (a : Audio) : option Q :=
  match a_duration a with
  | Some d => if Qeq_bool d 0 then None else Some d
  | None => None
  end.

(** *** Object spreads *)

(** [{...track, id}] *)
Definition with_id (i : Z) (t : Track) : Track :=
  mkTrack (t_src t) (t_title t) (t_index t) (t_originalIndex t) (Some i)
          (t_playlistId t) (t_sourceRoute t) (t_peaks t) (t_duration t).

(** [{...t, originalIndex: i, id}] *)
Definition with_originalIndex_id (i c : Z) (t : Track) : Track :=
  mkTrack (t_src t) (t_title t) (t_index t) (Some i) (Some c)
          (t_playlistId t) (t_sourceRoute t) (t_peaks t) (t_duration t).

(** [{...track, peaks: null, duration: 0}] *)
Definition as_current (t : Track) : Track :=
  mkTrack (t_src t) (t_title t) (t_index t) (t_originalIndex t) (t_id t)
          (t_playlistId t) (t_sourceRoute t) None (Some 0%Q).

(** [{...track, playlistId, sourceRoute, peaks: null, duration: 0}] *)
Definition as_current_from (playlistId sourceRoute : string) (t : Track) : Track :=
  mkTrack (t_src t) (t_title t) (t_index t) (t_originalIndex t) (t_id t)
          (Some playlistId) (Some sourceRoute) None (Some 0%Q).

(** [currentTrack.peaks = p; currentTrack.duration = d] *)
Definition with_waveform (p : list Q) (d : Q) (t : Track) : Track :=
  mkTrack (t_src t) (t_title t) (t_index t) (t_originalIndex t) (t_id t)
          (t_playlistId t) (t_sourceRoute t) (Some p) (Some d).

(** *** Shuffling *)

Section Random.
(** [Math.random]: the value returned by its [n]-th call. *)
Variable random : nat -> Q.

(** The loop of [shuffleArray], from index [i] down to 1; [n] is the
    number of the next call of [Math.random]. *)
Fixpoint shuffle_from {A} (n i : nat) (arr : list A) : list A :=
  match i with
  | O => arr
  | S i' =>
      let j := Qfloor (random n * inject_Z (Z.of_nat i + 1)) in
      shuffle_from (S n) i' (swap arr (Z.of_nat i) j)
  end.

Definition shuffleArray {A} (n : nat) (arr : list A) : list A :=
  shuffle_from n (length arr - 1) arr.

(** *** Queue management *)

(** [tracks.map((t, i) => ({...t, originalIndex: i, id: ++queueIdCounter}))]
    from position [i] on, with the counter at [c]: the new items and
    the counter afterwards. *)
Fixpoint assign_ids (c i : Z) (ts : list Track) : list Track * Z :=
  match ts with
  | [] => ([], c)
  | t :: ts' =>
      let c1 := c + 1 in
      let (rest, c') := assign_ids c1 (i + 1) ts' in
      (with_originalIndex_id i c1 t :: rest, c')
  end.

Definition ids_of (ts : list Track) : list Z :=
  omap t_id ts.

Definition addToQueue (track : Track) (st : State) : State :=
  let c := queueIdCounter st + 1 in
  set_queue (queue st ++ [with_id c track]) (set_counter c [c] st).

(** [startIndex] is [None] when the caller passes [undefined], which
    selects the default 0.  With shuffle on and [startIndex] outside
    the list the source puts [undefined] in front; the queue here has
    no such element and starts with the shuffled rest. *)
Definition addPlaylistToQueue (tracks : list Track) (startIndex : option Z)
    (st : State) : State :=
  let s := default 0 startIndex in
  let (newTracks, c) := assign_ids (queueIdCounter st) 0 tracks in
  let st1 := set_counter c (ids_of newTracks) st in
  let st2 :=
    if shuffle st1 then
      let rest := filter_index_ne newTracks s in
      let shuffled := shuffleArray (randomCalls st1) rest in
      let st' := add_randomCalls (length rest - 1) st1 in
      match get newTracks s with
      | Some startTrack => set_queue (startTrack :: shuffled) st'
      | None => set_queue shuffled st'
      end
    else
      set_queue (slice_from newTracks s ++ slice newTracks 0 s) st1 in
  set_queueIndex 0 st2.

Definition removeFromQueue (index : Z) (st : State) : State :=
  let st1 := set_queue (snd (splice (queue st) index 1 [])) st in
  if index <? queueIndex st1 then
    set_queueIndex (queueIndex st1 - 1) st1
  else if (index =? queueIndex st1) && (qlen st1 <=? queueIndex st1) then
    set_queueIndex (Z.max 0 (qlen st1 - 1)) st1
  else st1.

(** When [fromIndex] is past the end nothing is removed and the source
    inserts [undefined]; the queue here is then left as it is. *)
Definition reorderQueue (fromIndex toIndex : Z) (st : State) : State :=
  let (removed, q1) := splice (queue st) fromIndex 1 [] in
  let q2 :=
    match removed with
    | item :: _ => snd (splice q1 toIndex 0 [item])
    | [] => q1
    end in
  let st1 := set_queue q2 st in
  if fromIndex =? queueIndex st1 then
    set_queueIndex toIndex st1
  else if (fromIndex <? queueIndex st1) && (queueIndex st1 <=? toIndex) then
    set_queueIndex (queueIndex st1 - 1) st1
  else if (queueIndex st1 <? fromIndex) && (toIndex <=? queueIndex st1) then
    set_queueIndex (queueIndex st1 + 1) st1
  else st1.

(** With [queueIndex] outside the queue [current] is [undefined] in the
    source; the queue here then holds the shuffled rest only. *)
Definition toggleShuffle (st : State) : State :=
  let st1 := set_shuffle (negb (shuffle st)) st in
  if shuffle st1 && (1 <? qlen st1) then
    let before := slice (queue st1) 0 (queueIndex st1) in
    let after := slice_from (queue st1) (queueIndex st1 + 1) in
    let rest := before ++ after in
    let shuffled := shuffleArray (randomCalls st1) rest in
    let st2 := add_randomCalls (length rest - 1) st1 in
    let st3 :=
      match get (queue st1) (queueIndex st1) with
      | Some current => set_queue (current :: shuffled) st2
      | None => set_queue shuffled st2
      end in
    set_queueIndex 0 st3
  else st1.

Definition toggleLoop (st : State) : State :=
  set_loop (negb (loop st)) st.

Definition toggleQueueExpanded (st : State) : State :=
  set_queueExpanded (negb (queueExpanded st)) st.

(** *** Playback *)

(** The waveform of the new track is requested here as well; its
    arrival is the separate step [waveformLoaded]. *)
Definition playFromQueue (qi : Z) (st : State) : State :=
  if (qi <? 0) || (qlen st <=? qi) then st
  else
    match get (queue st) qi with
    | Some track =>
        set_audio (audio_play (audio_set_src (t_src track) (audio st)))
          (set_currentTrack (Some (as_current track))
             (set_queueIndex qi st))
    | None => st
    end.

Definition playTrack (track : Track) (playlistId sourceRoute : string)
    (st : State) : State :=
  let st1 :=
    match playlists st !! playlistId with
    | Some playlist =>
        if qlen st =? 0
        then addPlaylistToQueue (tracks playlist) (t_index track) st
        else st
    | None => st
    end in
  set_miniPlayerVisible true
    (set_audio (audio_play (audio_set_src (t_src track) (audio st1)))
       (set_currentTrack (Some (as_current_from playlistId sourceRoute track))
          st1)).

Definition togglePlay (st : State) : State :=
  if String.eqb (a_src (audio st)) "" then st
  else if isPlaying st then set_audio (audio_pause (audio st)) st
  else set_audio (audio_play (audio st)) st.

Definition pause (st : State) : State :=
  set_audio (audio_pause (audio st)) st.

Definition seek (percent : Q) (st : State) : State :=
  match duration_known (audio st) with
  | Some d => set_audio (audio_set_currentTime (percent * d)%Q (audio st)) st
  | None => st
  end.

Definition playNext (st : State) : State :=
  if qlen st =? 0 then st
  else
    let nextIndex := queueIndex st + 1 in
    if nextIndex <? qlen st then playFromQueue nextIndex st
    else if loop st then playFromQueue 0 st
    else set_isPlaying false (set_audio (audio_pause (audio st)) st).

Definition playPrev (st : State) : State :=
  if qlen st =? 0 then st
  else if Qgtb (currentTime (audio st)) 3 then
    set_audio (audio_set_currentTime 0 (audio st)) st
  else
    let prevIndex := queueIndex st - 1 in
    if 0 <=? prevIndex then playFromQueue prevIndex st
    else if loop st then playFromQueue (qlen st - 1) st
    else set_audio (audio_set_currentTime 0 (audio st)) st.

Definition stop (st : State) : State :=
  set_queueExpanded false
    (set_queueIndex 0
       (set_queue []
          (set_miniPlayerVisible false
             (set_isPlaying false
                (set_currentTrack None
                   (set_audio (audio_set_src "" (audio_pause (audio st)))
                      st)))))).

Definition registerPlaylist (playlistId : string) (tracks : list Track)
    (elementId : option string) (st : State) : State :=
  set_playlists (<[playlistId := mkPlaylist tracks elementId]> (playlists st)) st.

Definition unregisterPlaylist (playlistId : string) (st : State) : State :=
  set_playlists (delete playlistId (playlists st)) st.

(** *** Platform events *)

(** The listeners installed by [initAudioController]. *)
Definition onPlay (st : State) : State := set_isPlaying true st.
Definition onPause (st : State) : State := set_isPlaying false st.
Definition handleTrackEnd (st : State) : State := playNext st.

(** Playback progress and metadata, as the media element reports them. *)
Definition timeAdvanced (t : Q) (st : State) : State :=
  set_audio (audio_set_currentTime t (audio st)) st.
Definition metadataLoaded (d : Q) (st : State) : State :=
  set_audio (audio_set_duration (Some d) (audio st)) st.

(** The continuation of [getWaveformData(track.src).then(...)] in
    [playTrack] and [playFromQueue]. *)
Definition waveformLoaded (src : string) (peaks : list Q) (duration : Q)
    (st : State) : State :=
  match currentTrack st with
  | Some t =>
      if String.eqb (t_src t) src
      then set_currentTrack (Some (with_waveform peaks duration t)) st
      else st
  | None => st
  end.

(** *** Runs of the controller *)

Inductive Op :=
| PlayTrack (track : Track) (playlistId sourceRoute : string)
| PlayFromQueue (qi : Z)
| TogglePlay
| Pause
| Seek (percent : Q)
| PlayNext
| PlayPrev
| Stop
| AddToQueue (track : Track)
| AddPlaylistToQueue (tracks : list Track) (startIndex : option Z)
| RemoveFromQueue (index : Z)
| ReorderQueue (fromIndex toIndex : Z)
| ToggleShuffle
| ToggleLoop
| ToggleQueueExpanded
| RegisterPlaylist (playlistId : string) (tracks : list Track)
                   (elementId : option string)
| UnregisterPlaylist (playlistId : string)
| OnPlay
| OnPause
| OnEnded
| TimeAdvanced (t : Q)
| MetadataLoaded (d : Q)
| WaveformLoaded (src : string) (peaks : list Q) (duration : Q).

Definition exec (op : Op) (st : State) : State :=
  match op with
  | PlayTrack t p r => playTrack t p r st
  | PlayFromQueue qi => playFromQueue qi st
  | TogglePlay => togglePlay st
  | Pause => pause st
  | Seek p => seek p st
  | PlayNext => playNext st
  | PlayPrev => playPrev st
  | Stop => stop st
  | AddToQueue t => addToQueue t st
  | AddPlaylistToQueue ts s => addPlaylistToQueue ts s st
  | RemoveFromQueue i => removeFromQueue i st
  | ReorderQueue i j => reorderQueue i j st
  | ToggleShuffle => toggleShuffle st
  | ToggleLoop => toggleLoop st
  | ToggleQueueExpanded => toggleQueueExpanded st
  | RegisterPlaylist p ts e => registerPlaylist p ts e st
  | UnregisterPlaylist p => unregisterPlaylist p st
  | OnPlay => onPlay st
  | OnPause => onPause st
  | OnEnded => handleTrackEnd st
  | TimeAdvanced t => timeAdvanced t st
  | MetadataLoaded d => metadataLoaded d st
  | WaveformLoaded s p d => waveformLoaded s p d st
  end.

Definition run (ops : list Op) (st : State) : State :=
  foldl (fun s op => exec op s) st ops.
End Random.

(** [queueIndex] points into a non-empty queue, or rests at 0 on an
    empty one. *)
Definition valid_index (st : State) : Prop :=
  0 <= queueIndex st < qlen st.

Definition index_ok (st : State) : Prop :=
  valid_index st \/ (queue st = [] /\ queueIndex st = 0).

(** The contract of [Math.random]: every value lies in [0, 1). *)
Definition unit_range (random : nat -> Q) : Prop :=
  forall n, (0 <= random n)%Q /\ (random n < 1)%Q.

(** *** Notions used in the statements *)

(** The item made from the [k]-th track of a playlist when the counter
    stood at [c] before the call. *)
Definition queue_item (c : Z) (k : nat) (t : Track) : Track :=
  with_originalIndex_id (Z.of_nat k) (c + 1 + Z.of_nat k) t.

(** The restart of the current track: only the position changes. *)
Definition restarted (st : State) : State :=
  set_audio (audio_set_currentTime 0 (audio st)) st.

(** The [n] values that [++queueIdCounter] yields from the counter [c]. *)
Definition fresh_ids (c : Z) (n : nat) : list Z :=
  (fun k => c + 1 + Z.of_nat k) <$> seq 0 n.

(** What one operation does to the counter and to the ids issued so far:
    it issues the next [n] ids. *)
Definition issues (n : nat) (st st' : State) : Prop :=
  issuedIds st' = issuedIds st ++ fresh_ids (queueIdCounter st) n /\
  queueIdCounter st' = queueIdCounter st + Z.of_nat n.

(** The ids issued so far are 1, 2, ... up to the counter. *)
Definition ids_in_sequence (st : State) : Prop :=
  0 <= queueIdCounter st /\
  issuedIds st = fresh_ids 0 (Z.to_nat (queueIdCounter st)).

(** The item carries an id, one of those issued so far. *)
Definition carries_issued_id (st : State) (item : Track) : Prop :=
  exists i, t_id item = Some i /\ i ∈ issuedIds st.

(** The three queue edits of the mini-player, and what it means for
    their index arguments to lie inside the queue. *)
Inductive QueueEdit :=
| Add (track : Track)
| Remove (index : Z)
| Reorder (fromIndex toIndex : Z).

Definition edit (e : QueueEdit) (st : State) : State :=
  match e with
  | Add track => addToQueue track st
  | Remove index => removeFromQueue index st
  | Reorder fromIndex toIndex => reorderQueue fromIndex toIndex st
  end.

Definition in_range (e : QueueEdit) (st : State) : Prop :=
  match e with
  | Add _ => True
  | Remove index => 0 <= index < qlen st
  | Reorder fromIndex toIndex =>
      0 <= fromIndex < qlen st /\ 0 <= toIndex < qlen st
  end.

Fixpoint all_in_range (es : list QueueEdit) (st : State) : Prop :=
  match es with
  | [] => True
  | e :: es' => in_range e st /\ all_in_range es' (edit e st)
  end.

End Controller.

(** ** The waveform cache *)

Module Waveform.

(** What [decodeAudioData] delivers: the samples of channel 0 and the
    duration in seconds. *)
Record AudioBuffer := mkAudioBuffer {
  channelData0 : list Q;
  buffer_duration : Q
}.

Record WaveformData := mkWaveformData {
  peaks : list Q;
  duration : Q
}.

(** Result objects are told apart by their address, so that "the same
    object" can be said. *)
Abbreviation loc := positive (only parsing).

(** The module-level [audioContext] and [waveformCache], the result
    objects allocated so far and, as a record of the run, the number of
    times the fetch-and-decode path was entered. *)
Record Env := mkEnv {
  audioContext : bool;
  waveformCache : gmap string loc;
  objects : gmap loc WaveformData;
  decodeCalls : nat
}.

Definition initial : Env := mkEnv false ∅ ∅ 0.

(** How [fetch], [arrayBuffer] and [decodeAudioData] end for one call:
    with a decoded buffer, or with a rejection. *)
Inductive Fetched :=
| Decoded (buf : AudioBuffer)
| Rejected (reason : string).

(** *** Computations that may throw *)

Inductive Completion (A : Type) :=
| Normal (a : A)
| Throw (reason : string).
Arguments Normal {A} a.
Arguments Throw {A} reason.

Definition M (A : Type) : Type := Env -> Completion A * Env.

Definition ret {A} (a : A) : M A := fun env => (Normal a, env).
Definition throw {A} (reason : string) : M A := fun env => (Throw reason, env).
Definition bind {A B} (m : M A) (k : A -> M B) : M B :=
  fun env =>
    match m env with
    | (Normal a, env') => k a env'
    | (Throw reason, env') => (Throw reason, env')
    end.

(** [try { body } catch (e) { handler }]: what [body] did to the
    environment before it threw stays done. *)
Definition try_catch {A} (body : M A) (handler : string -> M A) : M A :=
  fun env =>
    match body env with
    | (Normal a, env') => (Normal a, env')
    | (Throw reason, env') => handler reason env'
    end.

#[export] Instance M_ret : MRet M := @ret.
#[export] Instance M_bind : MBind M := fun A B k m => bind m k.

(** *** Primitive steps *)

Definition cache_get (src : string) : M (option loc) :=
  fun env => (Normal (waveformCache env !! src), env).

Definition cache_set (src : string) (l : loc) : M unit :=
  fun env =>
    (Normal tt,
     mkEnv (audioContext env) (<[src := l]> (waveformCache env))
           (objects env) (decodeCalls env)).

(** An object literal: a new object at an address not in use. *)
Definition new_object (data : WaveformData) : M loc :=
  fun env =>
    let l := fresh (dom (objects env)) in
    (Normal l,
     mkEnv (audioContext env) (waveformCache env)
           (<[l := data]> (objects env)) (decodeCalls env)).

(** The platform is taken to provide Web Audio: creating the shared
    context does not fail. *)
Definition getAudioContext : M unit :=
  fun env =>
    (Normal tt,
     mkEnv true (waveformCache env) (objects env) (decodeCalls env)).

Definition count_decode : M unit :=
  fun env =>
    (Normal tt,
     mkEnv (audioContext env) (waveformCache env) (objects env)
           (S (decodeCalls env))).

(** The three awaited steps of the [try] block. *)
Definition fetch_and_decode (outcome : Fetched) : M AudioBuffer :=
  count_decode;;
  match outcome with
  | Decoded buf => mret buf
  | Rejected reason => throw reason
  end.

(** *** Peak extraction *)

(** The inner loop: the largest absolute value of a block, from 0. *)
Definition block_peak (block : list Q) : Q :=
  foldl (fun max x => if Controller.Qgtb (Qabs x) max then Qabs x else max) 0%Q block.

(** [Math.max(...peaks)]; the peaks are not negative, so starting from 0
    gives the same answer to the test [maxPeak > 0] as starting from
    minus infinity. *)
Definition max_peak (ps : list Q) : Q :=
  foldl (fun max p => if Controller.Qgtb p max then p else max) 0%Q ps.

Definition compute_peaks (rawData : list Q) (barCount : nat) : list Q :=
  let samples := length rawData in
  let blockSize := (samples / barCount)%nat in
  let ps :=
    (fun i => block_peak (take blockSize (drop (i * blockSize) rawData)))
      <$> seq 0 barCount in
  let maxPeak := max_peak ps in
  (fun p => if Controller.Qgtb maxPeak 0 then (p / maxPeak)%Q else (3 # 10)%Q) <$> ps.

(** [{ peaks: Array(barCount).fill(0.3), duration: 0 }] *)
Definition placeholder (barCount : nat) : WaveformData :=
  mkWaveformData (replicate barCount (3 # 10)%Q) 0.

(** *** getWaveformData *)

(** [barCount] is a number of bars (80 unless the caller says otherwise);
    [outcome] says how the network and the decoder answer if this call
    reaches them.  The promise the function returns is fulfilled with the
    address of a result object ([Normal]) or rejected ([Throw]).  A call
    runs to completion here: calls that overlap in time are outside this
    model. *)
Definition getWaveformData (src : string) (barCount : nat) (outcome : Fetched)
  : M loc :=
  cached ← cache_get src;
  match cached with
  | Some l => mret l
  | None =>
      getAudioContext;;
      try_catch
        (audioBuffer ← fetch_and_decode outcome;
         let normalized := compute_peaks (channelData0 audioBuffer) barCount in
         result ← new_object
                    (mkWaveformData normalized (buffer_duration audioBuffer));
         cache_set src result;;
         mret result)
        (fun e => new_object (placeholder barCount))
  end.

(** What a caller reads from a fulfilled promise. *)
Definition value_of (r : Completion loc) (env : Env) : option WaveformData :=
  match r with
  | Normal l => objects env !! l
  | Throw _ => None
  end.

End Waveform.

(** ** The snapshot of [getState] and the objects it shares *)

(** [getState] builds an object literal whose fields are read off the
    [state] singleton.  Two of them hold objects, the queue array and the
    current track, and an object is known by its address: this module
    keeps the arrays and the track objects in a heap and the fields that
    refer to them as addresses. *)
Module Snapshot.

Abbreviation loc := positive (only parsing).

(** The object [getState] returns. *)
Record StateView := mkStateView {
  v_currentTrack : option loc;
  v_isPlaying : bool;
  v_currentTime : Q;
  v_duration : Q;
  v_queue : loc;
  v_queueIndex : Z;
  v_queueExpanded : bool;
  v_shuffle : bool;
  v_loop : bool
}.

Record Heap := mkHeap {
  arrays : gmap loc (list loc);
  records : gmap loc Controller.Track;
  views : gmap loc StateView
}.

(** The fields of [state] that [getState] reads; [audio] is [None] while
    the media element is not created. *)
Record Refs := mkRefs {
  audio : option Controller.Audio;
  currentTrack : option loc;
  isPlaying : bool;
  queue : loc;
  queueIndex : Z;
  queueExpanded : bool;
  shuffle : bool;
  loop : bool
}.

(** [state.audio?.currentTime || 0] and [state.audio?.duration || 0]:
    a missing element, [NaN] and 0 all give 0. *)
Definition currentTime_or_0 (a : option Controller.Audio) : Q :=
  match a with
  | Some a => Controller.currentTime a
  | None => 0
  end.

Definition duration_or_0 (a : option Controller.Audio) : Q :=
  match a with
  | Some a => default 0%Q (Controller.a_duration a)
  | None => 0
  end.

(** The object literal of [getState]. *)
Definition view_of (st : Refs) : StateView :=
  mkStateView (currentTrack st) (isPlaying st)
              (currentTime_or_0 (audio st)) (duration_or_0 (audio st))
              (queue st) (queueIndex st) (queueExpanded st)
              (shuffle st) (loop st).

(** [getState] allocates it at an address not in use. *)
Definition getState (st : Refs) (h : Heap) : loc * Heap :=
  let l := fresh (dom (views h)) in
  (l, mkHeap (arrays h) (records h) (<[l := view_of st]> (views h))).

(** The controller's queue and current track as the controller reads
    them: through its own references. *)
Definition queue_of (st : Refs) (h : Heap) : option (list (option Controller.Track)) :=
  (fun cells : list loc => (fun l => records h !! l) <$> cells)
    <$> arrays h !! queue st.

Definition currentTrack_of (st : Refs) (h : Heap) : option Controller.Track :=
  l ← currentTrack st; records h !! l.

Definition internal (st : Refs) (h : Heap) :=
  (queue_of st h, currentTrack_of st h).

(** What a caller holding the snapshot can do to it: assign its fields,
    change the array in its [queue] field (push, splice, assignment to a
    cell or to [length]), assign fields of the object in its
    [currentTrack] field or of a queue item. *)
Inductive Mutation :=
| AssignField (update : StateView -> StateView)
| QueueWrite (update : list loc -> list loc)
| CurrentTrackWrite (update : Controller.Track -> Controller.Track)
| QueueItemWrite (i : nat) (update : Controller.Track -> Controller.Track).

Definition mutate (snapshot : loc) (m : Mutation) (h : Heap) : Heap :=
  match views h !! snapshot with
  | None => h
  | Some view =>
      match m with
      | AssignField f =>
          mkHeap (arrays h) (records h) (<[snapshot := f view]> (views h))
      | QueueWrite f =>
          mkHeap (alter f (v_queue view) (arrays h)) (records h) (views h)
      | CurrentTrackWrite f =>
          match v_currentTrack view with
          | Some l => mkHeap (arrays h) (alter f l (records h)) (views h)
          | None => h
          end
      | QueueItemWrite i f =>
          match cells ← arrays h !! v_queue view; cells !! i with
          | Some l => mkHeap (arrays h) (alter f l (records h)) (views h)
          | None => h
          end
      end
  end.

End Snapshot.

(** ** Sample data *)

Module Samples.
Import Controller.

(** A track as a playlist view hands it over: [{src, title, index}]. *)
Definition track (name : string) (i : Z) : Track :=
  mkTrack name name (Some i) None None None None None None.

Definition A := track "A" 0.
Definition B := track "B" 1.
Definition C := track "C" 2.
Definition D := track "D" 3.

(** The queue items that [addPlaylistToQueue [A; B; C; D]] creates on a
    fresh controller. *)
Definition qA := with_originalIndex_id 0 1 A.
Definition qB := with_originalIndex_id 1 2 B.
Definition qC := with_originalIndex_id 2 3 C.
Definition qD := with_originalIndex_id 3 4 D.

(** A source of random numbers that always answers one half. *)
Definition half : nat -> Q := fun _ => (1 # 2)%Q.

(** A controller playing [C], the third of four queued tracks: the
    playlist is registered, its first track started, and the third row
    of the queue clicked. *)
Definition playingC : State :=
  run half [RegisterPlaylist "playlist-home-0" [A; B; C; D] None;
            PlayTrack A "playlist-home-0" "/"; OnPlay;
            PlayFromQueue 2] init.

(** The same controller five seconds into a track of 200 seconds. *)
Definition playingC_at_5 : State :=
  run half [MetadataLoaded 200; TimeAdvanced 5] playingC.

(** A playlist of one track is started and its only queue row is then
    removed with the remove button: the track goes on playing over an
    empty queue; five seconds later. *)
Definition playing_without_queue : State :=
  run half [RegisterPlaylist "playlist-home-0" [A] None;
            PlayTrack A "playlist-home-0" "/"; OnPlay; MetadataLoaded 200;
            RemoveFromQueue 0; TimeAdvanced 5] init.

(** Seven decoded samples of a recording of twelve seconds. *)
Definition buffer : Waveform.AudioBuffer :=
  Waveform.mkAudioBuffer
    [1 # 2; - (1); 1 # 4; 0; 1 # 8; - (1 # 2); 7]%Q 12.

(** The heap of a controller playing [B], the second of two queued
    tracks: the queue array at address 1, its items at 2 and 3, the
    current track object at 4. *)
Definition heap_AB : Snapshot.Heap :=
  Snapshot.mkHeap
    {[ 1%positive := [2%positive; 3%positive] ]}
    {[ 2%positive := with_originalIndex_id 0 1 A;
       3%positive := with_originalIndex_id 1 2 B;
       4%positive := as_current (with_originalIndex_id 1 2 B) ]}
    ∅.

Definition refs_AB : Snapshot.Refs :=
  Snapshot.mkRefs (Some (mkAudio "B" 0 None false)) (Some 4%positive) true
                  1%positive 1 false false false.
End Samples.

(** ** Runs with arguments inside the queue *)

Module ControllerRuns.
Import Controller.

(** The index arguments that the mini-player and the playlist views pass
    lie inside the queue or the track list they were rendered from.
    With them the operations below never meet [undefined]. *)
Definition op_in_range (op : Op) (st : State) : Prop :=
  match op with
  | RemoveFromQueue index => 0 <= index < qlen st
  | ReorderQueue fromIndex toIndex =>
      0 <= fromIndex < qlen st /\ 0 <= toIndex < qlen st
  | AddPlaylistToQueue ts startIndex =>
      shuffle st = true -> 0 <= default 0 startIndex < Z.of_nat (length ts)
  | PlayTrack track playlistId _ =>
      forall playlist,
        playlists st !! playlistId = Some playlist ->
        queue st = [] -> shuffle st = true ->
        0 <= default 0 (t_index track) < Z.of_nat (length (tracks playlist))
  | _ => True
  end.

Fixpoint run_in_range (random : nat -> Q) (ops : list Op) (st : State) : Prop :=
  match ops with
  | [] => True
  | op :: ops' =>
      op_in_range op st /\ run_in_range random ops' (exec random op st)
  end.

(** The media element holds the source of the current track, or no
    source when there is none. *)
Definition src_in_sync (st : State) : Prop :=
  a_src (audio st) = match currentTrack st with
                     | Some t => t_src t
                     | None => ""
                     end.

(** Every queue item has an id and no two items share one. *)
Definition queue_ids_distinct (st : State) : Prop :=
  NoDup (ids_of (queue st)) /\
  length (ids_of (queue st)) = length (queue st).

(** The facts kept along a run: the ids issued are 1 to the counter, the
    items of the queue carry issued ids, the position is in order and no
    id occurs twice in the queue. *)
Definition ids_kept (st : State) : Prop :=
  ids_in_sequence st /\
  (forall item, item ∈ queue st -> carries_issued_id st item) /\
  index_ok st /\
  NoDup (ids_of (queue st)).

End ControllerRuns.

Module MoreSamples.
Import Controller Samples.

(** A session: a playlist is mounted and its second track started,
    shuffle is switched on, a track is appended, the first row is dragged
    to the third place, the second row removed, the track ends, and the
    player is closed and started again. *)
Definition session : list Op :=
  [RegisterPlaylist "playlist-home-0" [A; B; C; D] None;
   PlayTrack B "playlist-home-0" "/"; OnPlay;
   ToggleShuffle; AddToQueue A; ReorderQueue 0 2; RemoveFromQueue 1;
   OnEnded; PlayPrev; Stop;
   PlayTrack C "playlist-home-0" "/"; OnPlay; PlayNext].
End MoreSamples.

(** ** Sequences of waveform requests *)

Module WaveformRuns.
Import Waveform.

(** One call [getWaveformData(src, barCount)] together with the answer
    of the network and the decoder, should the call reach them. *)
Record Call := mkCall {
  call_src : string;
  call_barCount : nat;
  call_outcome : Fetched
}.

Definition call (c : Call) (env : Env) : Env :=
  snd (getWaveformData (call_src c) (call_barCount c) (call_outcome c) env).

Definition calls (cs : list Call) (env : Env) : Env :=
  foldl (fun env c => call c env) env cs.

(** What [waveformCache.get(src)] holds, read through its address. *)
Definition cached (src : string) (env : Env) : option WaveformData :=
  waveformCache env !! src ≫= fun l => objects env !! l.

(** The result object that a call builds when it decodes its source. *)
Definition decoded_result (c : Call) : option WaveformData :=
  match call_outcome c with
  | Decoded buf =>
      Some (mkWaveformData (compute_peaks (channelData0 buf) (call_barCount c))
                           (buffer_duration buf))
  | Rejected _ => None
  end.

(** The first call for [src] in [cs] that the decoder answers. *)
Definition first_decoded (src : string) (cs : list Call) : option WaveformData :=
  head (omap (fun c => if String.eqb (call_src c) src
                       then decoded_result c else None) cs).

(** Every cached address holds an object. *)
Definition cache_allocated (env : Env) : Prop :=
  forall s l, waveformCache env !! s = Some l -> is_Some (objects env !! l).

(** The step of the two loops that look for a largest value: the running
    maximum after [x], where [g] is what is compared ([Math.abs] of a
    sample, or a peak itself). *)
Definition keep_larger (g : Q -> Q) (max x : Q) : Q :=
  if Controller.Qgtb (g x) max then g x else max.

(** The [peaks] array of [getWaveformData] before it is normalised. *)
Definition raw_peaks (rawData : list Q) (barCount : nat) : list Q :=
  let blockSize := (length rawData / barCount)%nat in
  (fun i => block_peak (take blockSize (drop (i * blockSize) rawData)))
    <$> seq 0 barCount.

End WaveformRuns.

(** ** The playlist views (audio hydration) *)

(** The module that turns the [data-playlist] containers of a page into
    playlist views and registers them with the controller.  The markup
    it builds and the waveform canvases are left out; what is kept is
    what reaches the controller. *)
Module Hydration.
Import Stdlib.Strings.Ascii.
Import Controller.

(** A [data-track] element: [dataset.src] and [dataset.title].  The
    elements are taken to carry [data-src]. *)
Record TrackEl := mkTrackEl {
  data_src : string;
  data_title : option string
}.

(** The module-level [activePlaylistId] next to the controller's state. *)
Record Page := mkPage {
  activePlaylistId : option string;
  controller : State
}.

Definition start : Page := mkPage None init.

(** [el.dataset.title || `Track ${i + 1}`] *)
Definition title_of (i : nat) (el : TrackEl) : string :=
  match data_title el with
  | Some t => if String.eqb t "" then "Track " +:+ pretty (S i) else t
  | None => "Track " +:+ pretty (S i)
  end.

Definition tracksData (container : list TrackEl) : list Track :=
  imap (fun i el =>
          mkTrack (data_src el) (title_of i el) (Some (Z.of_nat i))
                  None None None None None None) container.

(** [if (activePlaylistId) unregisterPlaylist(activePlaylistId)]: an
    empty string is as good as [null] for the test. *)
Definition unregister_active (p : Page) : State :=
  match activePlaylistId p with
  | Some id =>
      if String.eqb id "" then controller p
      else unregisterPlaylist id (controller p)
  | None => controller p
  end.

(** The view's update callback and the synchronisation of the rows with
    a track that is already playing only draw; they are not modelled. *)
Definition createPlaylist (container : list TrackEl) (playlistId : string)
    (p : Page) : Page :=
  let st := unregister_active p in
  let ts := tracksData container in
  if (length ts =? 0)%nat then mkPage (Some playlistId) st
  else
    mkPage (Some playlistId)
      (registerPlaylist playlistId ts (Some ("playlist-el-" +:+ playlistId)) st).

(** [/[^a-zA-Z0-9]/] on one character of the hash. *)
Definition alphanumeric (c : ascii) : bool :=
  let n := nat_of_ascii c in
  ((48 <=? n) && (n <=? 57) || (65 <=? n) && (n <=? 90) ||
   (97 <=? n) && (n <=? 122))%nat.

Fixpoint replace_non_alphanumeric (s : string) : string :=
  match s with
  | EmptyString => EmptyString
  | String c s' =>
      String (if alphanumeric c then c else "-"%char)
             (replace_non_alphanumeric s')
  end.

(** [window.location.hash.replace(/[^a-zA-Z0-9]/g, '-') || 'home'] *)
Definition routeHash (hash : string) : string :=
  let r := replace_non_alphanumeric hash in
  if String.eqb r "" then "home" else r.

(** [`playlist-${routeHash}-${idx}`] *)
Definition playlistId_of (hash : string) (idx : nat) : string :=
  "playlist-" +:+ routeHash hash +:+ "-" +:+ pretty idx.

(** [window.location.hash.slice(1) || '/'] *)
Definition sourceRoute_of (hash : string) : string :=
  let r := match hash with EmptyString => EmptyString | String _ s => s end in
  if String.eqb r "" then "/" else r.

(** [initAudioController] returns at once when the media element
    exists, as it does in every [State] here. *)
Definition create_all (hash : string) (idx : nat)
    (containers : list (list TrackEl)) (p : Page) : Page :=
  foldl (fun p ic => createPlaylist (snd ic) (playlistId_of hash (fst ic)) p)
        p (zip (seq idx (length containers)) containers).

Definition initPlaylists (hash : string) (containers : list (list TrackEl))
    (p : Page) : Page :=
  create_all hash 0 containers p.

Definition cleanupAudio (p : Page) : Page :=
  match activePlaylistId p with
  | Some id =>
      if String.eqb id "" then p
      else mkPage None (unregisterPlaylist id (controller p))
  | None => p
  end.

(** [state.currentTrack?.index === index && state.currentTrack?.src === src] *)
Definition is_current (index : nat) (src : string) (st : State) : bool :=
  match currentTrack st with
  | Some t =>
      match t_index t with
      | Some i => (i =? Z.of_nat index) && String.eqb (t_src t) src
      | None => false
      end
  | None => false
  end.

Section Runs.
Variable random : nat -> Q.

(** A click on the play button of row [index] of the view that
    [createPlaylist container playlistId] built while the location hash
    was [hash].  The row's own waveform request goes to
    [getWaveformData] and leaves the controller's state alone. *)
Definition clickPlay (hash playlistId : string) (container : list TrackEl)
    (index : nat) (st : State) : State :=
  match tracksData container !! index with
  | Some track =>
      if is_current index (t_src track) st then togglePlay st
      else playTrack random track playlistId (sourceRoute_of hash) st
  | None => st
  end.

(** A click on the [+] button of the row: [addToQueue({src, title, index})]. *)
Definition clickAdd (container : list TrackEl) (index : nat) (st : State)
  : State :=
  match tracksData container !! index with
  | Some track => addToQueue track st
  | None => st
  end.

(** What happens to a page: the router mounts and unmounts views, the
    visitor clicks rows, and the player and the media element act on the
    controller. *)
Inductive PageOp :=
| InitPlaylists (hash : string) (containers : list (list TrackEl))
| CleanupAudio
| ClickPlay (hash playlistId : string) (container : list TrackEl) (index : nat)
| ClickAdd (container : list TrackEl) (index : nat)
| Player (op : Op).

Definition page_exec (op : PageOp) (p : Page) : Page :=
  match op with
  | InitPlaylists hash containers => initPlaylists hash containers p
  | CleanupAudio => cleanupAudio p
  | ClickPlay hash playlistId container index =>
      mkPage (activePlaylistId p)
             (clickPlay hash playlistId container index (controller p))
  | ClickAdd container index =>
      mkPage (activePlaylistId p) (clickAdd container index (controller p))
  | Player op => mkPage (activePlaylistId p) (exec random op (controller p))
  end.

Definition page_run (ops : list PageOp) (p : Page) : Page :=
  foldl (fun p op => page_exec op p) p ops.

End Runs.

(** Only the hydration module registers playlists: the player's own
    controls never do. *)
Definition from_player (op : Op) : bool :=
  match op with
  | RegisterPlaylist _ _ _ => false
  | _ => true
  end.

Definition page_op_ok (op : PageOp) : bool :=
  match op with
  | Player op => from_player op
  | _ => true
  end.

(** Every registered playlist is the active one. *)
Definition registered_only_active (p : Page) : Prop :=
  forall id, is_Some (playlists (controller p) !! id) ->
             activePlaylistId p = Some id.

(** What every page satisfies that the router and the visitor can reach. *)
Definition page_ok (p : Page) : Prop :=
  activePlaylistId p <> Some "" /\ registered_only_active p.

(** A page with two playlist views of two tracks each. *)
Definition two_views : list (list TrackEl) :=
  [[mkTrackEl "a.mp3" (Some "A"); mkTrackEl "b.mp3" None];
   [mkTrackEl "c.mp3" (Some "C"); mkTrackEl "d.mp3" (Some "")]].

End Hydration.

(** * Properties *)

(** ** Array primitives inside their range *)

Module JsArrayFacts.
Import JsArray.

Section Facts.
Context {A : Type}.
Implicit Types (arr : list A) (x : A).

Lemma get_nat arr (n : nat) : get arr (Z.of_nat n) = arr !! n.
Proof.
  unfold get. destruct (Z.ltb_spec (Z.of_nat n) 0); [lia|].
  by rewrite Nat2Z.id.
Qed.

Lemma get_in_range arr i :
  0 <= i < Z.of_nat (length arr) -> is_Some (get arr i).
Proof.
  intros Hi. unfold get. destruct (Z.ltb_spec i 0); [lia|].
  apply lookup_lt_is_Some. lia.
Qed.

Lemma relative_in_range len i : 0 <= i <= len -> relative len i = i.
Proof.
  intros Hi. unfold relative. destruct (Z.ltb_spec i 0); lia.
Qed.

(** [splice(i, 1)] inside the array removes exactly the cell [i]. *)
Lemma splice_remove arr i x :
  arr !! i = Some x ->
  splice arr (Z.of_nat i) 1 [] = ([x], delete i arr).
Proof.
  intros Hx. pose proof (lookup_lt_Some _ _ _ Hx) as Hlt.
  unfold splice. rewrite relative_in_range by lia.
  replace (Z.min (Z.max 1 0) (Z.of_nat (length arr) - Z.of_nat i)) with 1 by lia.
  rewrite Nat2Z.id. replace (Z.to_nat (Z.of_nat i + 1)) with (S i) by lia.
  f_equal.
  - rewrite (drop_S _ _ _ Hx). done.
  - by rewrite delete_take_drop.
Qed.

(** [splice(i, 0, x)] with [i] at most the length inserts before cell [i]. *)
Lemma splice_insert arr i x :
  (i <= length arr)%nat ->
  snd (splice arr (Z.of_nat i) 0 [x]) = take i arr ++ x :: drop i arr.
Proof.
  intros Hi. unfold splice. rewrite relative_in_range by lia.
  replace (Z.min (Z.max 0 0) (Z.of_nat (length arr) - Z.of_nat i)) with 0 by lia.
  rewrite Z.add_0_r, Nat2Z.id. done.
Qed.

Lemma lookup_insert_at arr i x (k : nat) :
  (i <= length arr)%nat ->
  (take i arr ++ x :: drop i arr) !! k =
    if decide (k < i)%nat then arr !! k
    else if decide (k = i) then Some x
    else arr !! (k - 1)%nat.
Proof.
  intros Hi. destruct (decide (k < i)%nat) as [Hk|Hk].
  - rewrite lookup_app_l by (rewrite length_take; lia).
    by rewrite lookup_take_lt.
  - rewrite lookup_app_r by (rewrite length_take; lia).
    rewrite length_take, Nat.min_l by lia.
    destruct (decide (k = i)) as [->|Hne].
    + by rewrite Nat.sub_diag.
    + destruct (k - i)%nat as [|m] eqn:Hm; [lia|]. simpl.
      rewrite lookup_drop. f_equal. lia.
Qed.

Lemma lookup_delete_at arr i (k : nat) :
  delete i arr !! k = if decide (k < i)%nat then arr !! k else arr !! S k.
Proof.
  destruct (decide (k < i)%nat).
  - by apply list_lookup_delete_lt.
  - apply list_lookup_delete_ge. lia.
Qed.

Lemma length_delete_lt arr i :
  (i < length arr)%nat -> length (delete i arr) = (length arr - 1)%nat.
Proof.
  intros Hi. destruct (lookup_lt_is_Some_2 arr i Hi) as [x Hx].
  pose proof (length_delete arr i (ex_intro _ x Hx)). lia.
Qed.

Lemma slice_from_in_range arr (s : nat) :
  (s <= length arr)%nat -> slice_from arr (Z.of_nat s) = drop s arr.
Proof.
  intros Hs. unfold slice_from, slice.
  rewrite !relative_in_range by lia. rewrite Nat2Z.id.
  apply take_ge. rewrite length_drop. lia.
Qed.

Lemma slice_prefix arr (s : nat) :
  (s <= length arr)%nat -> slice arr 0 (Z.of_nat s) = take s arr.
Proof.
  intros Hs. unfold slice.
  rewrite !relative_in_range by lia. simpl.
  by rewrite Z.sub_0_r, Nat2Z.id.
Qed.

Lemma get_Some arr i x :
  get arr i = Some x <-> 0 <= i /\ arr !! Z.to_nat i = Some x.
Proof.
  unfold get. destruct (Z.ltb_spec i 0).
  - split; [done|]. intros [? _]. lia.
  - split; [|by intros [_ ?]]. intros ?. split; [lia|done].
Qed.

(** A swap inside the array is a transposition of two cells. *)
Lemma swap_in_range arr (i j : nat) a b :
  arr !! i = Some a -> arr !! j = Some b ->
  swap arr (Z.of_nat i) (Z.of_nat j) = <[j := a]> (<[i := b]> arr).
Proof.
  intros Ha Hb. unfold swap. rewrite !get_nat, Ha, Hb.
  by rewrite !Nat2Z.id.
Qed.

Lemma swap_perm_in_range arr (i j : nat) :
  (i < length arr)%nat -> (j < length arr)%nat ->
  swap arr (Z.of_nat i) (Z.of_nat j) ≡ₚ arr.
Proof.
  intros Hi Hj.
  destruct (lookup_lt_is_Some_2 arr i Hi) as [a Ha].
  destruct (lookup_lt_is_Some_2 arr j Hj) as [b Hb].
  rewrite (swap_in_range _ _ _ _ _ Ha Hb).
  by apply Permutation_insert_swap.
Qed.

(** Whatever the indices, the primitives invent no element. *)
Lemma splice_removed_subseteq arr start deleteCount items :
  fst (splice arr start deleteCount items) ⊆ arr.
Proof.
  unfold splice. simpl. etrans; [apply subseteq_take|apply subseteq_drop].
Qed.

Lemma splice_subseteq arr start deleteCount items :
  snd (splice arr start deleteCount items) ⊆ arr ++ items.
Proof.
  unfold splice. simpl. intros x.
  rewrite !elem_of_app. intros [Hx|[Hx|Hx]]; [left|by right|left].
  - by eapply subseteq_take.
  - by eapply subseteq_drop.
Qed.

Lemma slice_subseteq arr start stop : slice arr start stop ⊆ arr.
Proof.
  unfold slice. etrans; [apply subseteq_take|apply subseteq_drop].
Qed.

Lemma slice_from_subseteq arr start : slice_from arr start ⊆ arr.
Proof. apply slice_subseteq. Qed.

Lemma filter_index_ne_subseteq arr k : filter_index_ne arr k ⊆ arr.
Proof.
  intros x. unfold filter_index_ne. rewrite list_elem_of_In, in_map_iff.
  intros ([i y] & <- & Hin). apply filter_In in Hin as [Hin _].
  apply list_elem_of_In, elem_of_lookup_imap_1 in Hin as (j & z & Heq & Hz).
  injection Heq as _ ->. simpl. by eapply list_elem_of_lookup_2.
Qed.

Lemma get_elem_of arr i x : get arr i = Some x -> x ∈ arr.
Proof.
  rewrite get_Some. intros [_ Hx]. by eapply list_elem_of_lookup_2.
Qed.

Lemma swap_perm arr i j : swap arr i j ≡ₚ arr.
Proof.
  unfold swap. destruct (get arr i) as [a|] eqn:Ha; [|done].
  destruct (get arr j) as [b|] eqn:Hb; [|done].
  apply get_Some in Ha as [_ Ha]. apply get_Some in Hb as [_ Hb].
  by apply Permutation_insert_swap.
Qed.
End Facts.

Example splice_from_the_end :
  splice [10; 20; 30] (-1) 1 [] = ([30], [10; 20]).
Proof. reflexivity. Qed.

Example splice_past_the_end :
  splice [10; 20; 30] 5 1 [] = ([], [10; 20; 30]).
Proof. reflexivity. Qed.

Example splice_inserts :
  splice [10; 20; 30] 1 0 [15] = ([], [10; 15; 20; 30]).
Proof. reflexivity. Qed.

Example slice_examples :
  slice [10; 20; 30; 40] 0 (-1) = [10; 20; 30] /\
  slice [10; 20; 30; 40] 0 2 = [10; 20] /\
  slice_from [10; 20; 30; 40] 2 = [30; 40] /\
  filter_index_ne [10; 20; 30; 40] 2 = [10; 20; 40].
Proof. repeat split; reflexivity. Qed.

End JsArrayFacts.

(** ** Queue operations *)

Module ControllerFacts.
Import JsArray JsArrayFacts Controller.

(** Case analysis on the integer comparisons of a goal. *)
Ltac zcases :=
  repeat match goal with
    | |- context [?a <? ?b] => destruct (Z.ltb_spec a b)
    | |- context [?a <=? ?b] => destruct (Z.leb_spec a b)
    | |- context [?a =? ?b] => destruct (Z.eqb_spec a b)
    end; simpl.

Example playingC_state :
  queue Samples.playingC = [Samples.qA; Samples.qB; Samples.qC; Samples.qD] /\
  queueIndex Samples.playingC = 2 /\
  currentTrack Samples.playingC = Some (as_current Samples.qC) /\
  isPlaying Samples.playingC = true /\
  a_src (audio Samples.playingC) = "C" /\
  issuedIds Samples.playingC = [1; 2; 3; 4].
Proof. vm_compute. done. Qed.

Lemma Z_of_index (i len : Z) :
  0 <= i < len -> exists n : nat, i = Z.of_nat n /\ (Z.of_nat n < len).
Proof. intros Hi. exists (Z.to_nat i). lia. Qed.

Lemma queue_removeFromQueue (n : nat) x st :
  queue st !! n = Some x ->
  queue (removeFromQueue (Z.of_nat n) st) = delete n (queue st).
Proof.
  intros Hx. unfold removeFromQueue. rewrite (splice_remove _ _ _ Hx). simpl.
  repeat case_match; done.
Qed.

Lemma queueIndex_removeFromQueue (n : nat) x st :
  queue st !! n = Some x ->
  queueIndex (removeFromQueue (Z.of_nat n) st) =
    if Z.of_nat n <? queueIndex st then queueIndex st - 1
    else if (Z.of_nat n =? queueIndex st) && (qlen st - 1 <=? queueIndex st)
         then Z.max 0 (qlen st - 2)
         else queueIndex st.
Proof.
  intros Hx. pose proof (lookup_lt_Some _ _ _ Hx) as Hlt.
  unfold removeFromQueue. rewrite (splice_remove _ _ _ Hx). simpl.
  unfold qlen. simpl. rewrite length_delete_lt by done.
  replace (Z.of_nat (length (queue st) - 1)) with (Z.of_nat (length (queue st)) - 1) by lia.
  replace (Z.of_nat (length (queue st)) - 1 - 1) with (Z.of_nat (length (queue st)) - 2) by lia.
  repeat case_match; done.
Qed.

Lemma queue_reorderQueue (a b : nat) x st :
  queue st !! a = Some x -> (b < length (queue st))%nat ->
  queue (reorderQueue (Z.of_nat a) (Z.of_nat b) st) =
    take b (delete a (queue st)) ++ x :: drop b (delete a (queue st)).
Proof.
  intros Hx Hb. pose proof (lookup_lt_Some _ _ _ Hx) as Hlt.
  unfold reorderQueue. rewrite (splice_remove _ _ _ Hx).
  rewrite splice_insert by (rewrite length_delete_lt; lia).
  simpl. repeat case_match; done.
Qed.

Lemma queueIndex_reorderQueue (a b : nat) x st :
  queue st !! a = Some x ->
  queueIndex (reorderQueue (Z.of_nat a) (Z.of_nat b) st) =
    if Z.of_nat a =? queueIndex st then Z.of_nat b
    else if (Z.of_nat a <? queueIndex st) && (queueIndex st <=? Z.of_nat b)
         then queueIndex st - 1
         else if (queueIndex st <? Z.of_nat a) && (Z.of_nat b <=? queueIndex st)
              then queueIndex st + 1
              else queueIndex st.
Proof.
  intros Hx. unfold reorderQueue. rewrite (splice_remove _ _ _ Hx). simpl.
  repeat case_match; done.
Qed.

Lemma valid_index_addToQueue track st :
  valid_index st -> valid_index (addToQueue track st).
Proof.
  unfold valid_index, qlen, addToQueue. simpl. rewrite length_app. simpl. lia.
Qed.

Lemma removeFromQueue_keeps_index (n p : nat) x y st :
  queue st !! n = Some x -> queue st !! p = Some y ->
  queueIndex st = Z.of_nat p ->
  let st' := removeFromQueue (Z.of_nat n) st in
  (queue st' <> [] -> valid_index st') /\
  (n <> p -> get (queue st') (queueIndex st') = Some y) /\
  (n = p -> queueIndex st' = Z.max 0 (Z.min (queueIndex st) (qlen st' - 1))).
Proof.
  intros Hx Hy Hp st'.
  pose proof (lookup_lt_Some _ _ _ Hx) as Hn.
  pose proof (lookup_lt_Some _ _ _ Hy) as Hlt.
  assert (Hq : queue st' = delete n (queue st)) by by eapply queue_removeFromQueue.
  assert (Hi := queueIndex_removeFromQueue n x st Hx). fold st' in Hi.
  assert (Hlen : qlen st' = qlen st - 1).
  { unfold qlen. rewrite Hq, length_delete_lt by done. lia. }
  unfold valid_index. rewrite Hlen, Hi, Hq. unfold qlen in *. rewrite Hp.
  split_and!.
  - intros Hne.
    assert (length (delete n (queue st)) <> 0)%nat
      by (by destruct (delete n (queue st))).
    rewrite length_delete_lt in * by done.
    zcases; lia.
  - intros Hnp.
    destruct (Z.ltb_spec (Z.of_nat n) (Z.of_nat p)).
    + replace (Z.of_nat p - 1) with (Z.of_nat (p - 1)) by lia.
      rewrite get_nat, lookup_delete_at.
      destruct (decide (p - 1 < n)%nat); [lia|].
      by replace (S (p - 1)) with p by lia.
    + destruct (Z.eqb_spec (Z.of_nat n) (Z.of_nat p)); [lia|]. simpl.
      rewrite get_nat, lookup_delete_at.
      destruct (decide (p < n)%nat); [done|lia].
  - intros ->. zcases; lia.
Qed.

Lemma reorderQueue_keeps_index (a b p : nat) x y st :
  queue st !! a = Some x -> (b < length (queue st))%nat ->
  queue st !! p = Some y -> queueIndex st = Z.of_nat p ->
  let st' := reorderQueue (Z.of_nat a) (Z.of_nat b) st in
  valid_index st' /\ get (queue st') (queueIndex st') = Some y.
Proof.
  intros Hx Hb Hy Hp st'.
  pose proof (lookup_lt_Some _ _ _ Hx) as Ha.
  pose proof (lookup_lt_Some _ _ _ Hy) as Hlt.
  assert (Hq := queue_reorderQueue a b x st Hx Hb). fold st' in Hq.
  assert (Hi := queueIndex_reorderQueue a b x st Hx). fold st' in Hi.
  assert (Hd : length (delete a (queue st)) = (length (queue st) - 1)%nat)
    by by apply length_delete_lt.
  assert (Hlen : qlen st' = qlen st).
  { unfold qlen. rewrite Hq, length_app, length_take. simpl.
    rewrite length_drop, Hd. lia. }
  assert (Hb' : (b <= length (delete a (queue st)))%nat) by lia.
  unfold valid_index. rewrite Hlen, Hi, Hq, Hp. unfold qlen.
  destruct (Z.eqb_spec (Z.of_nat a) (Z.of_nat p)) as [Hap|Hap].
  { assert (a = p) as -> by lia. split; [lia|].
    rewrite get_nat, lookup_insert_at by done.
    destruct (decide (b < b)%nat); [lia|].
    destruct (decide (b = b)); congruence. }
  destruct (Z.ltb_spec (Z.of_nat a) (Z.of_nat p));
    destruct (Z.leb_spec (Z.of_nat p) (Z.of_nat b));
    destruct (Z.ltb_spec (Z.of_nat p) (Z.of_nat a));
    destruct (Z.leb_spec (Z.of_nat b) (Z.of_nat p)); simpl; try lia.
  all: split; [lia|].
  all: try replace (Z.of_nat p - 1) with (Z.of_nat (p - 1)) by lia.
  all: try replace (Z.of_nat p + 1) with (Z.of_nat (p + 1)) by lia.
  all: rewrite get_nat, lookup_insert_at by done.
  all: repeat (case_decide; try lia).
  all: rewrite lookup_delete_at; repeat (case_decide; try lia).
  all: rewrite <- Hy; f_equal; lia.
Qed.

Lemma valid_index_reorderQueue st :
  valid_index st ->
  forall fromIndex toIndex,
    0 <= fromIndex < qlen st -> 0 <= toIndex < qlen st ->
    valid_index (reorderQueue fromIndex toIndex st).
Proof.
  intros Hv fromIndex toIndex Hf Ht.
  destruct (Z_of_index _ _ Hv) as (p & Hp & Hplt).
  destruct (Z_of_index _ _ Hf) as (a & -> & Halt).
  destruct (Z_of_index _ _ Ht) as (b & -> & Hblt). unfold qlen in *.
  destruct (lookup_lt_is_Some_2 (queue st) p) as [y Hy]; [lia|].
  destruct (lookup_lt_is_Some_2 (queue st) a) as [x Hx]; [lia|].
  destruct (reorderQueue_keeps_index a b p x y st Hx) as (H1 & _); (done || lia).
Qed.

(** C1. From a state whose [queueIndex] is a valid index into a non-empty
    queue, and for arguments inside the queue: [addToQueue],
    [removeFromQueue] and [reorderQueue] leave [queueIndex] a valid index
    whenever the resulting queue is non-empty; after [removeFromQueue]
    and [reorderQueue] the cell [queue[queueIndex]] holds the very item
    it held before, unless [removeFromQueue] removed that item itself, in
    which case [queueIndex] is clamped to the last remaining index. *)
Theorem queue_mutations_keep_queueIndex (st : State) :
  queue st <> [] -> valid_index st ->
  (forall track, valid_index (addToQueue track st)) /\
  (forall index, 0 <= index < qlen st ->
     let st' := removeFromQueue index st in
     (queue st' <> [] -> valid_index st') /\
     (index <> queueIndex st ->
        exists item, get (queue st) (queueIndex st) = Some item /\
                     get (queue st') (queueIndex st') = Some item) /\
     (index = queueIndex st ->
        queueIndex st' = Z.max 0 (Z.min (queueIndex st) (qlen st' - 1)))) /\
  (forall fromIndex toIndex,
     0 <= fromIndex < qlen st -> 0 <= toIndex < qlen st ->
     let st' := reorderQueue fromIndex toIndex st in
     valid_index st' /\
     exists item, get (queue st) (queueIndex st) = Some item /\
                  get (queue st') (queueIndex st') = Some item).
Proof.
  intros _ Hv.
  destruct (Z_of_index _ _ Hv) as (p & Hp & Hplt).
  destruct (lookup_lt_is_Some_2 (queue st) p) as [y Hy]; [unfold qlen in *; lia|].
  assert (Hget : get (queue st) (queueIndex st) = Some y)
    by (by rewrite Hp, get_nat).
  split_and!.
  - intros track. by apply valid_index_addToQueue.
  - intros index Hi.
    destruct (Z_of_index _ _ Hi) as (n & -> & Hnlt).
    destruct (lookup_lt_is_Some_2 (queue st) n) as [x Hx]; [unfold qlen in *; lia|].
    destruct (removeFromQueue_keeps_index n p x y st Hx Hy Hp) as (H1 & H2 & H3).
    split_and!; [done| |].
    + intros Hne. exists y. split; [done|]. apply H2. lia.
    + intros Heq. apply H3. lia.
  - intros fromIndex toIndex Hf Ht.
    destruct (Z_of_index _ _ Hf) as (a & -> & Halt).
    destruct (Z_of_index _ _ Ht) as (b & -> & Hblt).
    destruct (lookup_lt_is_Some_2 (queue st) a) as [x Hx]; [unfold qlen in *; lia|].
    destruct (reorderQueue_keeps_index a b p x y st Hx) as (H1 & H2); try done.
    { unfold qlen in *; lia. }
    split; [done|]. by exists y.
Qed.

(** The theorem at the state [playingC]: appending [D], removing the
    item that plays and dragging the first row to the end. *)
Lemma queue_mutations_keep_queueIndex_witness :
  queue Samples.playingC <> [] /\ valid_index Samples.playingC /\
  valid_index (addToQueue Samples.D Samples.playingC) /\
  valid_index (removeFromQueue 2 Samples.playingC) /\
  valid_index (reorderQueue 0 3 Samples.playingC).
Proof.
  assert (Hne : queue Samples.playingC <> []) by discriminate.
  assert (Hv : valid_index Samples.playingC)
    by (split; [discriminate|reflexivity]).
  destruct (queue_mutations_keep_queueIndex Samples.playingC Hne Hv)
    as (Hadd & Hrem & Hmove).
  split; [done|]. split; [done|]. split; [apply Hadd|]. split.
  - apply (Hrem 2); [split; [discriminate|reflexivity]|discriminate].
  - apply (Hmove 0 3); split; (discriminate || reflexivity).
Defined.

Example reorder_first_to_last :
  let st' := reorderQueue 0 3 Samples.playingC in
  queue st' = [Samples.qB; Samples.qC; Samples.qD; Samples.qA] /\
  queueIndex st' = 1.
Proof. vm_compute. done. Qed.

Example reorder_playing_item :
  let st' := reorderQueue 2 0 Samples.playingC in
  queue st' = [Samples.qC; Samples.qA; Samples.qB; Samples.qD] /\
  queueIndex st' = 0.
Proof. vm_compute. done. Qed.

Example remove_last_while_playing_it :
  let st' := removeFromQueue 3 (set_queueIndex 3 Samples.playingC) in
  queue st' = [Samples.qA; Samples.qB; Samples.qC] /\ queueIndex st' = 2.
Proof. vm_compute. done. Qed.

Example remove_before_playing_item :
  let st' := removeFromQueue 0 Samples.playingC in
  queue st' = [Samples.qB; Samples.qC; Samples.qD] /\ queueIndex st' = 1.
Proof. vm_compute. done. Qed.

Lemma index_ok_edit e st :
  index_ok st -> in_range e st -> index_ok (edit e st).
Proof.
  intros Hok Hr. destruct e as [track|index|fromIndex toIndex]; simpl in *.
  - left. destruct Hok as [Hv|[Hq H0]]; [by apply valid_index_addToQueue|].
    unfold valid_index, qlen, addToQueue. simpl. rewrite Hq, H0. simpl. lia.
  - destruct Hok as [Hv|[Hq _]]; [|unfold qlen in Hr; rewrite Hq in Hr; simpl in Hr; lia].
    destruct (Z_of_index _ _ Hv) as (p & Hp & Hplt).
    destruct (Z_of_index _ _ Hr) as (n & -> & Hnlt). unfold qlen in *.
    destruct (lookup_lt_is_Some_2 (queue st) p) as [y Hy]; [lia|].
    destruct (lookup_lt_is_Some_2 (queue st) n) as [x Hx]; [lia|].
    destruct (removeFromQueue_keeps_index n p x y st Hx Hy Hp) as (H1 & H2 & H3).
    set (st' := removeFromQueue (Z.of_nat n) st) in *.
    destruct (queue st') as [|z q'] eqn:Hq'; [right|left; by apply H1].
    split; [done|]. destruct (decide (n = p)) as [Heq|Hne].
    + rewrite (H3 Heq). unfold qlen. rewrite Hq'. simpl. lia.
    + specialize (H2 Hne). apply get_elem_of in H2.
      by apply elem_of_nil in H2.
  - destruct Hr as [Hf Ht].
    destruct Hok as [Hv|[Hq _]]; [|unfold qlen in Hf; rewrite Hq in Hf; simpl in Hf; lia].
    assert (Hne : queue st <> []).
    { intros Hq. unfold qlen in Hf. rewrite Hq in Hf. simpl in Hf. lia. }
    left. by apply (valid_index_reorderQueue st Hv fromIndex toIndex).
Qed.

(** Over runs of queue edits with indices inside the queue, from the
    initial state on: [queueIndex] is a valid index whenever the queue
    is non-empty, and rests at 0 when it is empty. *)
Lemma index_ok_edits es : forall st,
  index_ok st -> all_in_range es st ->
  index_ok (foldl (fun s e => edit e s) st es).
Proof.
  induction es as [|e es IH]; intros st Hok Hr; [done|].
  destruct Hr as [He Hes]. simpl. apply IH; [|done]. by apply index_ok_edit.
Qed.

Lemma index_ok_init : index_ok init.
Proof. by right. Qed.

(** ** Populating the queue from a playlist *)

Lemma assign_ids_closed ts : forall c (i : nat),
  assign_ids c (Z.of_nat i) ts =
    (imap (fun k => queue_item (c - Z.of_nat i) (i + k)) ts,
     c + Z.of_nat (length ts)).
Proof.
  induction ts as [|t ts IH]; intros c i; simpl.
  - f_equal. lia.
  - replace (Z.of_nat i + 1) with (Z.of_nat (S i)) by lia.
    rewrite IH. f_equal; [|lia]. f_equal.
    + unfold queue_item. f_equal; lia.
    + apply imap_ext. intros k x _. simpl. unfold queue_item. f_equal; lia.
Qed.

Lemma assign_ids_from_zero c ts :
  assign_ids c 0 ts = (imap (queue_item c) ts, c + Z.of_nat (length ts)).
Proof.
  change 0 with (Z.of_nat 0). rewrite assign_ids_closed. f_equal.
  apply imap_ext. intros k x _. simpl. by rewrite Z.sub_0_r.
Qed.

Lemma fmap_queue_item {X} (f : Track -> X) c ts :
  (forall k t, f (queue_item c k t) = f t) ->
  f <$> imap (queue_item c) ts = f <$> ts.
Proof.
  intros Hf. rewrite fmap_imap, <- imap_const.
  apply imap_ext. intros k t _. apply Hf.
Qed.

(** C3. With shuffle off and a start index [s] inside the track list,
    [addPlaylistToQueue] sets the queue to the rotation of the list that
    begins at [s], every element carrying its [originalIndex] and a fresh
    id, and sets [queueIndex] to 0.  On a fresh controller the playlist
    [A, B, C, D] started at 2 gives the queue [C, D, A, B]. *)
Theorem addPlaylistToQueue_rotates :
  (forall random (ts : list Track) (s : nat) st,
     shuffle st = false -> (s < length ts)%nat ->
     let st' := addPlaylistToQueue random ts (Some (Z.of_nat s)) st in
     let items := imap (queue_item (queueIdCounter st)) ts in
     queue st' = drop s items ++ take s items /\
     t_src <$> queue st' = t_src <$> (drop s ts ++ take s ts) /\
     t_title <$> queue st' = t_title <$> (drop s ts ++ take s ts) /\
     queueIndex st' = 0) /\
  (forall random,
     let st' := addPlaylistToQueue random
                  [Samples.A; Samples.B; Samples.C; Samples.D] (Some 2) init in
     queue st' = [Samples.qC; Samples.qD; Samples.qA; Samples.qB] /\
     queueIndex st' = 0).
Proof.
  split; [|done].
  intros random ts s st Hsh Hs st' items.
  assert (Hq : queue st' = drop s items ++ take s items /\ queueIndex st' = 0).
  { subst st'. unfold addPlaylistToQueue. rewrite assign_ids_from_zero.
    fold items. simpl. rewrite Hsh. simpl.
    assert (length items = length ts) as Hlen by apply length_imap.
    by rewrite slice_from_in_range, slice_prefix by lia. }
  destruct Hq as [Hq Hi]. split_and!; [done| | |done].
  - rewrite Hq, !fmap_app, !fmap_drop, !fmap_take. subst items.
    by rewrite (fmap_queue_item t_src).
  - rewrite Hq, !fmap_app, !fmap_drop, !fmap_take. subst items.
    by rewrite (fmap_queue_item t_title).
Qed.

(** The theorem at the sample playlist. *)
Lemma addPlaylistToQueue_rotates_witness :
  queueIndex (addPlaylistToQueue Samples.half
                [Samples.A; Samples.B; Samples.C; Samples.D] (Some 2) init) = 0.
Proof.
  apply (proj1 addPlaylistToQueue_rotates Samples.half
           [Samples.A; Samples.B; Samples.C; Samples.D] 2%nat init).
  - reflexivity.
  - simpl. lia.
Defined.

(** ** Shuffling *)

(** The index drawn by one round of the shuffle lies in [0 .. i]. *)
Lemma shuffle_index_in_range (r : Q) (i : Z) :
  (0 <= r)%Q -> (r < 1)%Q -> 0 <= i ->
  0 <= Qfloor (r * inject_Z (i + 1)) <= i.
Proof.
  intros H0 H1 Hi.
  assert (Hpos : (0 < inject_Z (i + 1))%Q).
  { change 0%Q with (inject_Z 0). rewrite <- Zlt_Qlt. lia. }
  split.
  - change 0 with (Qfloor (inject_Z 0)) at 1. apply Qfloor_resp_le.
    change (inject_Z 0) with 0%Q. apply Qmult_le_0_compat; [done|].
    by apply Qlt_le_weak.
  - cut (Qfloor (r * inject_Z (i + 1)) < i + 1); [lia|].
    rewrite Zlt_Qlt. eapply Qle_lt_trans; [apply Qfloor_le|].
    rewrite <- (Qmult_1_l (inject_Z (i + 1))) at 2.
    by apply Qmult_lt_compat_r.
Qed.

Lemma shuffle_from_S {X} random (n i : nat) (arr : list X) :
  shuffle_from random n (S i) arr =
    shuffle_from random (S n) i
      (swap arr (Z.of_nat (S i))
            (Qfloor (random n * inject_Z (Z.of_nat (S i) + 1)))).
Proof. reflexivity. Qed.

Lemma shuffle_from_perm {X} random (arr : list X) :
  unit_range random ->
  forall (i n : nat) (l : list X),
    (i < length l)%nat -> l ≡ₚ arr -> shuffle_from random n i l ≡ₚ arr.
Proof.
  intros Hr. induction i as [|i IH]; intros n l Hi Hl; [done|].
  rewrite shuffle_from_S. destruct (Hr n) as [H0 H1].
  pose proof (shuffle_index_in_range (random n) (Z.of_nat (S i)) H0 H1) as Hj.
  set (j := Qfloor (random n * inject_Z (Z.of_nat (S i) + 1))) in *.
  assert (Hsw : swap l (Z.of_nat (S i)) j ≡ₚ l).
  { replace j with (Z.of_nat (Z.to_nat j)) by lia.
    apply swap_perm_in_range; lia. }
  apply IH.
  - rewrite Hsw. lia.
  - by rewrite Hsw.
Qed.

Lemma shuffleArray_perm {X} random n (arr : list X) :
  unit_range random -> shuffleArray random n arr ≡ₚ arr.
Proof.
  intros Hr. unfold shuffleArray. destruct arr as [|x arr]; [done|].
  apply shuffle_from_perm; [done| |done]. simpl. lia.
Qed.

(** C4. Enabling shuffle on a queue of more than one item, with a valid
    [queueIndex] and [Math.random] answering in [0, 1): [shuffle] becomes
    true, the item that was at [queueIndex] is first, the rest of the
    queue is a permutation of the other items, [queueIndex] is 0 and the
    length is unchanged. *)
Theorem toggleShuffle_pins_current random st :
  unit_range random ->
  shuffle st = false -> 1 < qlen st -> valid_index st ->
  let st' := toggleShuffle random st in
  shuffle st' = true /\
  (exists current rest,
     get (queue st) (queueIndex st) = Some current /\
     queue st' = current :: rest /\
     rest ≡ₚ delete (Z.to_nat (queueIndex st)) (queue st)) /\
  queue st' ≡ₚ queue st /\
  queueIndex st' = 0 /\
  length (queue st') = length (queue st).
Proof.
  intros Hr Hsh Hlen Hv st'.
  destruct (Z_of_index _ _ Hv) as (p & Hp & Hplt). unfold qlen in *.
  destruct (lookup_lt_is_Some_2 (queue st) p) as [y Hy]; [lia|].
  set (rest := shuffleArray random (randomCalls st) (delete p (queue st))).
  assert (Hst' : st' = set_queueIndex 0 (set_queue (y :: rest)
            (add_randomCalls (length (delete p (queue st)) - 1)
               (set_shuffle true st)))).
  { subst st'. unfold toggleShuffle. rewrite Hsh. simpl. unfold qlen. simpl.
    destruct (Z.ltb_spec 1 (Z.of_nat (length (queue st)))); [|lia].
    rewrite Hp, get_nat, Hy.
    replace (Z.of_nat p + 1) with (Z.of_nat (S p)) by lia.
    rewrite slice_prefix, slice_from_in_range by lia.
    by rewrite <- delete_take_drop. }
  assert (Hrest : rest ≡ₚ delete p (queue st)) by by apply shuffleArray_perm.
  assert (Hall : y :: rest ≡ₚ queue st).
  { rewrite Hrest. symmetry. by apply delete_Permutation. }
  rewrite Hst'. simpl. split_and!; [done| |done|done|].
  - exists y, rest. rewrite Hp, get_nat, Nat2Z.id. done.
  - by apply Permutation_length in Hall.
Qed.

(** The theorem at the state [playingC], with the random source [half]. *)
Lemma toggleShuffle_pins_current_witness :
  queue (toggleShuffle Samples.half Samples.playingC) ≡ₚ queue Samples.playingC.
Proof.
  apply (toggleShuffle_pins_current Samples.half Samples.playingC).
  - intros n. split; [discriminate|reflexivity].
  - reflexivity.
  - reflexivity.
  - split; [discriminate|reflexivity].
Defined.

Example toggleShuffle_playingC :
  let st' := toggleShuffle Samples.half Samples.playingC in
  queue st' = [Samples.qC; Samples.qA; Samples.qD; Samples.qB] /\
  queueIndex st' = 0 /\ shuffle st' = true.
Proof. vm_compute. done. Qed.

(** ** Moving through the queue *)

Lemma playFromQueue_in_range qi st :
  0 <= qi < qlen st ->
  exists track,
    get (queue st) qi = Some track /\
    playFromQueue qi st =
      set_audio (audio_play (audio_set_src (t_src track) (audio st)))
        (set_currentTrack (Some (as_current track)) (set_queueIndex qi st)).
Proof.
  intros Hqi. destruct (get_in_range (queue st) qi Hqi) as [track Ht].
  exists track. split; [done|]. unfold playFromQueue. rewrite Ht.
  zcases; (lia || done).
Qed.

Lemma playNext_advances st :
  0 <= queueIndex st -> queueIndex st + 1 < qlen st ->
  exists track,
    get (queue st) (queueIndex st + 1) = Some track /\
    playNext st =
      set_audio (audio_play (audio_set_src (t_src track) (audio st)))
        (set_currentTrack (Some (as_current track))
           (set_queueIndex (queueIndex st + 1) st)).
Proof.
  intros H0 Hlt.
  destruct (playFromQueue_in_range (queueIndex st + 1) st) as (t & Ht & Hp); [lia|].
  exists t. split; [done|]. unfold playNext. rewrite <- Hp.
  zcases; (lia || done).
Qed.

Lemma playNext_at_end st :
  loop st = false -> qlen st <> 0 -> qlen st <= queueIndex st + 1 ->
  playNext st = set_isPlaying false (set_audio (audio_pause (audio st)) st).
Proof.
  intros Hl Hne Hend. unfold playNext. rewrite Hl. zcases; (lia || done).
Qed.

Lemma playNext_stopped_fixpoint st :
  loop st = false -> qlen st <> 0 -> qlen st <= queueIndex st + 1 ->
  playNext (playNext st) = playNext st.
Proof.
  intros Hl Hne Hend. rewrite (playNext_at_end st) by done.
  by rewrite playNext_at_end.
Qed.

Section Exhaust.
Variable st : State.
Hypothesis loop_off : loop st = false.
Hypothesis nonempty : queue st <> [].
Hypothesis at_start : queueIndex st = 0.

Let N := length (queue st).
Let after (k : nat) : State := Nat.iter k playNext st.

Lemma playNext_before_end (k : nat) :
  (k < N)%nat ->
  queueIndex (after k) = Z.of_nat k /\ queue (after k) = queue st /\
  loop (after k) = false.
Proof using loop_off at_start.
  induction k as [|k IH]; intros Hk; [done|].
  destruct IH as (Hi & Hq & Hl); [lia|].
  destruct (playNext_advances (after k)) as (t & _ & Hstep).
  { lia. } { unfold qlen. rewrite Hi, Hq. fold N. lia. }
  change (after (S k)) with (playNext (after k)). rewrite Hstep. simpl.
  split_and!; [lia|done|done].
Qed.

Lemma playNext_plays (k : nat) :
  (S k < N)%nat ->
  paused (audio (after (S k))) = false /\
  exists t, queue st !! S k = Some t /\
            currentTrack (after (S k)) = Some (as_current t).
Proof using loop_off at_start.
  intros Hk. destruct (playNext_before_end k) as (Hi & Hq & Hl); [lia|].
  destruct (playNext_advances (after k)) as (t & Ht & Hstep).
  { lia. } { unfold qlen. rewrite Hi, Hq. fold N. lia. }
  change (after (S k)) with (playNext (after k)). rewrite Hstep. simpl.
  split; [done|]. exists t. split; [|done].
  rewrite Hi, Hq in Ht. replace (Z.of_nat k + 1) with (Z.of_nat (S k)) in Ht by lia.
  by rewrite get_nat in Ht.
Qed.

Lemma playNext_exhausts :
  after N = set_isPlaying false
              (set_audio (audio_pause (audio (after (N - 1)))) (after (N - 1))).
Proof using loop_off nonempty at_start.
  assert (0 < N)%nat as HN.
  { subst N. destruct (queue st); [done|simpl; lia]. }
  destruct (playNext_before_end (N - 1)) as (Hi & Hq & Hl); [lia|].
  replace N with (S (N - 1)) at 1 by lia.
  change (after (S (N - 1))) with (playNext (after (N - 1))).
  apply playNext_at_end; [done| |]; unfold qlen; rewrite ?Hi, Hq; fold N; lia.
Qed.

Lemma playNext_stays_stopped (m : nat) :
  (N <= m)%nat -> after m = after N.
Proof using loop_off nonempty at_start.
  assert (0 < N)%nat as HN.
  { subst N. destruct (queue st); [done|simpl; lia]. }
  destruct (playNext_before_end (N - 1)) as (Hi & Hq & Hl); [lia|].
  induction m as [|m IH]; intros Hm; [lia|].
  destruct (decide (S m = N)) as [->|Hne]; [done|].
  change (after (S m)) with (playNext (after m)). rewrite IH by lia.
  replace N with (S (N - 1)) by lia.
  change (after (S (N - 1))) with (playNext (after (N - 1))).
  apply playNext_stopped_fixpoint; [done| |]; unfold qlen; rewrite ?Hi, Hq; fold N; lia.
Qed.
End Exhaust.

(** C5. With [loop] off, on a non-empty queue of length [N] and starting
    from [queueIndex] 0, the calls of [playNext] number 1 to [N - 1]
    start the tracks 1 to [N - 1]; the [N]-th call pauses, sets
    [isPlaying] to false and keeps [currentTrack], [queue] and
    [queueIndex]; every later call leaves the state as it is. *)
Theorem playNext_runs_to_the_end (st : State) (N : nat) :
  loop st = false -> length (queue st) = N -> (0 < N)%nat ->
  queueIndex st = 0 ->
  let after (k : nat) := Nat.iter k playNext st in
  (forall k, (k < N)%nat ->
     queueIndex (after k) = Z.of_nat k /\ queue (after k) = queue st) /\
  (forall k, (1 <= k < N)%nat ->
     paused (audio (after k)) = false /\
     exists t, queue st !! k = Some t /\
               currentTrack (after k) = Some (as_current t)) /\
  (isPlaying (after N) = false /\ paused (audio (after N)) = true /\
   currentTrack (after N) = currentTrack (after (N - 1)%nat) /\
   queue (after N) = queue st /\ queueIndex (after N) = Z.of_nat N - 1) /\
  (forall m, (N <= m)%nat -> after m = after N).
Proof.
  intros Hl HN Hpos H0 after.
  assert (Hne : queue st <> []) by (intros E; rewrite E in HN; simpl in HN; lia).
  subst N. split; [|split; [|split]].
  - intros k Hk. destruct (playNext_before_end st Hl H0 k Hk) as (? & ? & _). done.
  - intros [|k] Hk; [lia|]. apply playNext_plays; [done|done|lia].
  - unfold after. rewrite (playNext_exhausts st Hl Hne H0).
    destruct (playNext_before_end st Hl H0 (length (queue st) - 1)) as (Hi & Hq & _); [lia|].
    simpl. split_and!; try done. rewrite Hi. lia.
  - intros m Hm. by apply playNext_stays_stopped.
Qed.

(** The theorem at [playingC] rewound to the first of its four tracks. *)
Lemma playNext_runs_to_the_end_witness :
  isPlaying (Nat.iter 4 playNext (set_queueIndex 0 Samples.playingC)) = false.
Proof.
  apply (playNext_runs_to_the_end (set_queueIndex 0 Samples.playingC) 4).
  - reflexivity.
  - reflexivity.
  - lia.
  - reflexivity.
Defined.

Example playNext_four_times :
  let st := set_queueIndex 0 Samples.playingC in
  queueIndex <$> [playNext st; playNext (playNext st);
                  Nat.iter 3 playNext st; Nat.iter 4 playNext st;
                  Nat.iter 5 playNext st] = [1; 2; 3; 3; 3] /\
  isPlaying <$> [Nat.iter 3 playNext st; Nat.iter 4 playNext st] = [true; false] /\
  currentTrack (Nat.iter 4 playNext st) = Some (as_current Samples.qD).
Proof. vm_compute. done. Qed.

(** ** Going back *)

Lemma Qgtb_lt (x y : Q) : Qgtb x y = true <-> (y < x)%Q.
Proof.
  unfold Qgtb. rewrite negb_true_iff, <- not_true_iff_false, Qle_bool_iff.
  split; [apply Qnot_le_lt|apply Qlt_not_le].
Qed.

Lemma Qgtb_le (x y : Q) : Qgtb x y = false <-> (x <= y)%Q.
Proof.
  unfold Qgtb. by rewrite negb_false_iff, Qle_bool_iff.
Qed.




Example playPrev_early_in_track :
  let st := set_audio (mkAudio "C" 2 (Some 200%Q) false) Samples.playingC in
  queueIndex (playPrev st) = 1 /\
  currentTrack (playPrev st) = Some (as_current Samples.qB) /\
  queueIndex (playPrev (set_loop true (set_queueIndex 0 st))) = 3 /\
  playPrev (set_queueIndex 0 st) = restarted (set_queueIndex 0 st).
Proof. vm_compute. done. Qed.

Example playing_without_queue_state :
  queue Samples.playing_without_queue = [] /\
  isPlaying Samples.playing_without_queue = true /\
  currentTime (audio Samples.playing_without_queue) = 5%Q /\
  playPrev Samples.playing_without_queue = Samples.playing_without_queue.
Proof. vm_compute. done. Qed.

(** ** Queue item ids *)

Lemma fmap_seq_shift {X} (f g : nat -> X) (n : nat) : forall a b : nat,
  (forall k, f (a + k)%nat = g (b + k)%nat) ->
  f <$> seq a n = g <$> seq b n.
Proof.
  induction n as [|n IH]; intros a b H; [done|]. simpl. f_equal.
  - specialize (H 0%nat). by rewrite !Nat.add_0_r in H.
  - apply IH. intros k. specialize (H (S k)).
    by replace (S a + k)%nat with (a + S k)%nat by lia;
       replace (S b + k)%nat with (b + S k)%nat by lia.
Qed.

Lemma fresh_ids_app (a n : nat) :
  fresh_ids 0 a ++ fresh_ids (Z.of_nat a) n = fresh_ids 0 (a + n).
Proof.
  unfold fresh_ids. rewrite seq_app, fmap_app. f_equal.
  apply fmap_seq_shift. intros k. lia.
Qed.

Lemma fresh_ids_sorted (c : Z) (n : nat) : StronglySorted Z.lt (fresh_ids c n).
Proof.
  unfold fresh_ids. generalize 0%nat.
  induction n as [|n IH]; intros a; simpl; constructor; [apply IH|].
  apply Forall_fmap, Forall_seq. intros j Hj. simpl. lia.
Qed.

Lemma ids_of_assign_ids c ts :
  ids_of (fst (assign_ids c 0 ts)) = fresh_ids c (length ts) /\
  snd (assign_ids c 0 ts) = c + Z.of_nat (length ts).
Proof.
  rewrite assign_ids_from_zero. simpl. split; [|done].
  unfold ids_of, fresh_ids.
  rewrite <- (imap_seq_0 ts (fun k => c + 1 + Z.of_nat k)).
  induction ts as [|t ts IH] using rev_ind; [done|].
  rewrite !imap_app, omap_app, IH. simpl. done.
Qed.

Lemma issues_none st st' :
  issuedIds st' = issuedIds st -> queueIdCounter st' = queueIdCounter st ->
  issues 0 st st'.
Proof.
  intros H1 H2. split; [by rewrite app_nil_r|lia].
Qed.

Lemma addToQueue_issues track st : issues 1 st (addToQueue track st).
Proof.
  unfold issues, addToQueue, fresh_ids. simpl. split; [|lia].
  by rewrite Z.add_0_r.
Qed.

Lemma addPlaylistToQueue_issues random ts s st :
  issues (length ts) st (addPlaylistToQueue random ts s st).
Proof.
  destruct (ids_of_assign_ids (queueIdCounter st) ts) as [Hids Hc].
  unfold issues, addPlaylistToQueue.
  destruct (assign_ids (queueIdCounter st) 0 ts) as [newTracks c].
  simpl in *. rewrite <- Hids, <- Hc.
  repeat case_match; done.
Qed.

Lemma playFromQueue_issues qi st : issues 0 st (playFromQueue qi st).
Proof.
  apply issues_none; unfold playFromQueue; repeat case_match; done.
Qed.

(** Operations that never evaluate [++queueIdCounter]. *)
Ltac issues_nothing :=
  exists 0%nat; apply issues_none;
  unfold togglePlay, pause, seek, playNext, playPrev, stop, removeFromQueue,
    reorderQueue, toggleShuffle, toggleLoop, toggleQueueExpanded,
    registerPlaylist, unregisterPlaylist, onPlay, onPause, handleTrackEnd,
    playNext, timeAdvanced, metadataLoaded, waveformLoaded, playFromQueue;
  repeat case_match; done.

Lemma exec_issues random op st :
  exists n, issues n st (exec random op st).
Proof.
  destruct op; simpl; try issues_nothing.
  - unfold playTrack.
    destruct (playlists st !! playlistId) as [pl|]; [destruct (qlen st =? 0)|].
    + exists (length (tracks pl)).
      destruct (addPlaylistToQueue_issues random (tracks pl) (t_index track) st).
      by split.
    + exists 0%nat. by apply issues_none.
    + exists 0%nat. by apply issues_none.
  - exists 1%nat. apply addToQueue_issues.
  - eexists. apply addPlaylistToQueue_issues.
Qed.

Lemma ids_in_sequence_step n st st' :
  issues n st st' -> ids_in_sequence st -> ids_in_sequence st'.
Proof.
  intros [Hi Hc] [H0 Hs]. split; [lia|].
  rewrite Hi, Hc, Hs.
  rewrite <- (Z2Nat.id (queueIdCounter st)) at 2 by done.
  rewrite fresh_ids_app. f_equal. lia.
Qed.

Lemma ids_in_sequence_run random ops : forall st,
  ids_in_sequence st -> ids_in_sequence (run random ops st).
Proof.
  induction ops as [|op ops IH]; intros st Hst; [done|].
  simpl. apply IH. destruct (exec_issues random op st) as [n Hn].
  by eapply ids_in_sequence_step.
Qed.

Lemma issuedIds_grow random ops : forall st,
  issuedIds st `prefix_of` issuedIds (run random ops st).
Proof.
  induction ops as [|op ops IH]; intros st; [done|].
  simpl. etrans; [|apply IH].
  destruct (exec_issues random op st) as [n [Hn _]]. rewrite Hn.
  by apply prefix_app_r.
Qed.

(** Every item of the queue got its id from the counter. *)
Lemma shuffle_from_subseteq {X} random : forall (i n : nat) (l : list X),
  shuffle_from random n i l ⊆ l.
Proof.
  induction i as [|i IH]; intros n l; [done|].
  rewrite shuffle_from_S. etrans; [apply IH|].
  intros x. by rewrite swap_perm.
Qed.

Lemma assign_ids_carry c ts item :
  item ∈ fst (assign_ids c 0 ts) ->
  exists i, t_id item = Some i /\ i ∈ ids_of (fst (assign_ids c 0 ts)).
Proof.
  intros Hin. assert (Hin' := Hin). revert Hin'.
  rewrite assign_ids_from_zero at 1. simpl.
  intros (k & t & -> & _)%elem_of_lookup_imap_1.
  eexists. split; [done|]. unfold ids_of. apply list_elem_of_omap.
  eexists. split; [exact Hin|done].
Qed.

Lemma queue_addPlaylistToQueue random ts s st item :
  item ∈ queue (addPlaylistToQueue random ts s st) ->
  carries_issued_id (addPlaylistToQueue random ts s st) item.
Proof.
  pose proof (assign_ids_carry (queueIdCounter st) ts item) as Hc.
  unfold addPlaylistToQueue, carries_issued_id.
  destruct (assign_ids (queueIdCounter st) 0 ts) as [newTracks c].
  simpl in *. intros Hin.
  assert (item ∈ newTracks) as Hnew.
  { destruct (shuffle st); simpl in Hin.
    - destruct (get newTracks (default 0 s)) as [t|] eqn:Ht; simpl in Hin.
      + apply elem_of_cons in Hin as [->|Hin]; [by eapply get_elem_of|].
        by eapply filter_index_ne_subseteq, shuffle_from_subseteq.
      + by eapply filter_index_ne_subseteq, shuffle_from_subseteq.
    - apply elem_of_app in Hin as [Hin|Hin].
      + by eapply slice_from_subseteq.
      + by eapply slice_subseteq. }
  destruct (Hc Hnew) as (i & Hi & Hin'). exists i. split; [done|].
  repeat case_match; simpl; apply elem_of_app; by right.
Qed.

Lemma queue_exec random op st item :
  item ∈ queue (exec random op st) ->
  item ∈ queue st \/ carries_issued_id (exec random op st) item.
Proof.
  destruct op; simpl;
    try (unfold togglePlay, pause, seek, playNext, playPrev,
           toggleLoop, toggleQueueExpanded, registerPlaylist,
           unregisterPlaylist, onPlay, onPause, handleTrackEnd, playNext,
           timeAdvanced, metadataLoaded, waveformLoaded, playFromQueue;
         repeat case_match; by left).
  - (* playTrack *)
    unfold playTrack.
    destruct (playlists st !! playlistId) as [pl|]; [destruct (qlen st =? 0)|];
      simpl; [|by left|by left].
    intros Hin. right.
    destruct (queue_addPlaylistToQueue random (tracks pl) (t_index track) st item Hin)
      as (i & Hi & Hin').
    by exists i.
  - (* stop *) simpl. by intros ?%elem_of_nil.
  - (* addToQueue *)
    unfold addToQueue. simpl. intros [Hin|Hin%list_elem_of_singleton]%elem_of_app;
      [by left|right].
    subst item. eexists. split; [done|]. simpl.
    apply elem_of_app. right. by apply list_elem_of_singleton.
  - (* addPlaylistToQueue *)
    intros Hin. right. by apply queue_addPlaylistToQueue.
  - (* removeFromQueue *)
    intros Hin. left.
    assert (item ∈ snd (splice (queue st) index 1 [])) as Hs.
    { revert Hin. unfold removeFromQueue. repeat case_match; done. }
    apply splice_subseteq in Hs. by rewrite app_nil_r in Hs.
  - (* reorderQueue *)
    intros Hin. left. revert Hin. unfold reorderQueue.
    pose proof (splice_removed_subseteq (queue st) fromIndex 1 []) as Hrem.
    pose proof (splice_subseteq (queue st) fromIndex 1 []) as Hq1.
    rewrite app_nil_r in Hq1.
    destruct (splice (queue st) fromIndex 1 []) as [removed q1].
    simpl in *. intros Hin.
    assert (item ∈ match removed with
                   | x :: _ => snd (splice q1 toIndex 0 [x])
                   | [] => q1
                   end) as Hs
      by (revert Hin; repeat case_match; done).
    destruct removed as [|x removed]; [by apply Hq1|].
    apply splice_subseteq, elem_of_app in Hs as [Hs|Hs%list_elem_of_singleton].
    + by apply Hq1.
    + subst. apply Hrem. by left.
  - (* toggleShuffle *)
    intros Hin. left. revert Hin. unfold toggleShuffle. simpl.
    destruct (negb (shuffle st) && (1 <? qlen (set_shuffle (negb (shuffle st)) st)));
      [|done].
    simpl. intros Hin.
    assert (slice (queue st) 0 (queueIndex st)
              ++ slice_from (queue st) (queueIndex st + 1) ⊆ queue st) as Hrest.
    { intros x [Hx|Hx]%elem_of_app.
      - by eapply slice_subseteq.
      - by eapply slice_from_subseteq. }
    destruct (get (queue st) (queueIndex st)) as [current|] eqn:Hc; simpl in Hin.
    + apply elem_of_cons in Hin as [->|Hin]; [by eapply get_elem_of|].
      by eapply Hrest, shuffle_from_subseteq.
    + by eapply Hrest, shuffle_from_subseteq.
Qed.

Lemma queue_ids_issued_run random ops : forall st,
  (forall item, item ∈ queue st -> carries_issued_id st item) ->
  forall item, item ∈ queue (run random ops st) ->
               carries_issued_id (run random ops st) item.
Proof.
  induction ops as [|op ops IH]; intros st Hst; [done|].
  simpl. apply IH. intros item [Hin|Hin]%queue_exec; [|done].
  destruct (Hst item Hin) as (i & Hi & Hissued). exists i. split; [done|].
  destruct (exec_issues random op st) as [n [-> _]].
  apply elem_of_app. by left.
Qed.

(** C7. On every run of the controller from its initial state the ids
    produced by [++queueIdCounter], in the order of their assignment, are
    1, 2, ... up to the counter: strictly increasing and pairwise
    distinct.  Ids issued in a run remain, in the same positions, among
    the ids of every continuation of the run, whatever operations it
    holds, [stop] included; and every item in the queue carries one of
    the ids issued. *)
Theorem queue_ids_never_reused random (ops : list Op) :
  let st := run random ops init in
  issuedIds st = fresh_ids 0 (Z.to_nat (queueIdCounter st)) /\
  StronglySorted Z.lt (issuedIds st) /\
  NoDup (issuedIds st) /\
  (forall more, issuedIds st `prefix_of` issuedIds (run random (ops ++ more) init)) /\
  (forall item, item ∈ queue st -> carries_issued_id st item).
Proof.
  intros st.
  destruct (ids_in_sequence_run random ops init) as [_ Hseq]; [by split|].
  fold st in Hseq.
  assert (Hsorted : StronglySorted Z.lt (issuedIds st))
    by (rewrite Hseq; apply fresh_ids_sorted).
  split_and!; [done|done| | |].
  - clear Hseq. induction Hsorted as [|i ids _ IH Hall]; constructor; [|done].
    intros Hin. rewrite Forall_forall in Hall. specialize (Hall _ Hin). lia.
  - intros more. unfold run. rewrite foldl_app. apply issuedIds_grow.
  - apply queue_ids_issued_run. by intros item ?%elem_of_nil.
Qed.

Example ids_survive_stop :
  let st := run Samples.half
              [AddPlaylistToQueue [Samples.A; Samples.B] None; Stop;
               AddPlaylistToQueue [Samples.A; Samples.B] None;
               AddToQueue Samples.C] init in
  ids_of (queue st) = [3; 4; 5] /\ issuedIds st = [1; 2; 3; 4; 5].
Proof. vm_compute. done. Qed.

(** ** What the queue edits leave alone *)

(** C10. [removeFromQueue] and [reorderQueue] change nothing but [queue]
    and [queueIndex]: the current track, the playing flag, the shuffle
    and loop modes and the media element, with its source, position and
    paused flag, are as before, also when the item removed is the one
    that plays. *)
Theorem queue_edits_leave_playback (st : State) :
  (forall index,
     let st' := removeFromQueue index st in
     currentTrack st' = currentTrack st /\ isPlaying st' = isPlaying st /\
     shuffle st' = shuffle st /\ loop st' = loop st /\
     audio st' = audio st) /\
  (forall fromIndex toIndex,
     let st' := reorderQueue fromIndex toIndex st in
     currentTrack st' = currentTrack st /\ isPlaying st' = isPlaying st /\
     shuffle st' = shuffle st /\ loop st' = loop st /\
     audio st' = audio st).
Proof.
  split.
  - intros index. unfold removeFromQueue. simpl. repeat case_match; done.
  - intros fromIndex toIndex. unfold reorderQueue.
    destruct (splice (queue st) fromIndex 1 []) as [removed q1].
    simpl. repeat case_match; done.
Qed.

Example remove_playing_item :
  let st' := removeFromQueue 2 Samples.playingC in
  queue st' = [Samples.qA; Samples.qB; Samples.qD] /\ queueIndex st' = 2 /\
  currentTrack st' = Some (as_current Samples.qC) /\ isPlaying st' = true /\
  a_src (audio st') = "C".
Proof. vm_compute. done. Qed.

End ControllerFacts.

(** ** The waveform cache *)

Module WaveformFacts.
Import Waveform.

(** A cached source is answered from the cache: the environment is not
    touched, so nothing is fetched or decoded. *)
Lemma getWaveformData_hit src barCount outcome env l :
  waveformCache env !! src = Some l ->
  getWaveformData src barCount outcome env = (Normal l, env).
Proof.
  intros Hc. unfold getWaveformData, mbind, M_bind, bind, cache_get.
  by rewrite Hc.
Qed.

Lemma getWaveformData_decoded src barCount buf env :
  waveformCache env !! src = None ->
  let l := fresh (dom (objects env)) in
  let result := mkWaveformData (compute_peaks (channelData0 buf) barCount)
                               (buffer_duration buf) in
  getWaveformData src barCount (Decoded buf) env =
    (Normal l, mkEnv true (<[src := l]> (waveformCache env))
                     (<[l := result]> (objects env)) (S (decodeCalls env))).
Proof.
  intros Hc. unfold getWaveformData, mbind, M_bind, bind, cache_get.
  by rewrite Hc.
Qed.

Lemma getWaveformData_rejected src barCount reason env :
  waveformCache env !! src = None ->
  let l := fresh (dom (objects env)) in
  getWaveformData src barCount (Rejected reason) env =
    (Normal l, mkEnv true (waveformCache env)
                     (<[l := placeholder barCount]> (objects env))
                     (S (decodeCalls env))).
Proof.
  intros Hc. unfold getWaveformData, mbind, M_bind, bind, cache_get.
  by rewrite Hc.
Qed.




Example getWaveformData_sample :
  let r := getWaveformData "a.mp3" 3 (Decoded Samples.buffer) initial in
  value_of (fst r) (snd r)
    = Some (mkWaveformData [1; 1 # 4; 1 # 2]%Q 12) /\
  decodeCalls (snd r) = 1%nat.
Proof. vm_compute. done. Qed.



End WaveformFacts.

(** ** The snapshot of getState *)

Module SnapshotFacts.
Import Snapshot.

Lemma getState_allocates st h :
  let s := fst (getState st h) in
  let h1 := snd (getState st h) in
  views h !! s = None /\
  views h1 !! s = Some (view_of st) /\
  arrays h1 = arrays h /\ records h1 = records h.
Proof.
  simpl. split_and!; [|apply lookup_insert_eq|done|done].
  apply not_elem_of_dom, is_fresh.
Qed.

(** C2 as stated fails: the snapshot's [queue] is the controller's own
    array.  Emptying it through the snapshot empties the controller's
    queue. *)
Lemma snapshot_queue_is_live :
  ~ (forall st h m,
       let s := fst (getState st h) in
       let h1 := snd (getState st h) in
       internal st (mutate s m h1) = internal st h).
Proof.
  intros H.
  specialize (H Samples.refs_AB Samples.heap_AB (QueueWrite (fun _ => []))).
  vm_compute in H. discriminate.
Qed.

Example snapshot_queue_emptied :
  let s := fst (getState Samples.refs_AB Samples.heap_AB) in
  let h1 := snd (getState Samples.refs_AB Samples.heap_AB) in
  queue_of Samples.refs_AB Samples.heap_AB
    = Some [Some (Controller.with_originalIndex_id 0 1 Samples.A);
            Some (Controller.with_originalIndex_id 1 2 Samples.B)] /\
  queue_of Samples.refs_AB (mutate s (QueueWrite (fun _ => [])) h1) = Some [] /\
  queue_of Samples.refs_AB
    (mutate s (AssignField (fun v =>
       mkStateView (v_currentTrack v) (v_isPlaying v) (v_currentTime v)
                   (v_duration v) 7%positive 0 (v_queueExpanded v)
                   (v_shuffle v) (v_loop v))) h1)
    = queue_of Samples.refs_AB Samples.heap_AB.
Proof. vm_compute. done. Qed.

(** C2, amended.  [getState] returns a new object that holds the values
    of the fields of [state] and leaves the arrays and track objects as
    they are.  Assigning fields of that object changes neither the queue
    nor the current track that the controller reads, nor any other
    snapshot.  Its [queue] and [currentTrack] fields, however, hold the
    controller's own array and track object: a write to either through
    the snapshot is a write to the controller's. *)
Theorem getState_copies_fields_only (st : Refs) (h : Heap) :
  let s := fst (getState st h) in
  let h1 := snd (getState st h) in
  (views h !! s = None /\
   views h1 !! s = Some (view_of st) /\
   internal st h1 = internal st h) /\
  (forall f,
     let h2 := mutate s (AssignField f) h1 in
     arrays h2 = arrays h /\ records h2 = records h /\
     internal st h2 = internal st h /\
     (forall s', s' <> s -> views h2 !! s' = views h !! s')) /\
  (forall f,
     arrays (mutate s (QueueWrite f) h1) !! queue st
       = f <$> arrays h !! queue st) /\
  (forall f l,
     currentTrack st = Some l ->
     records (mutate s (CurrentTrackWrite f) h1) !! l = f <$> records h !! l).
Proof.
  intros s h1.
  destruct (getState_allocates st h) as (Hfresh & Hview & Harr & Hrec).
  fold s h1 in Hfresh, Hview, Harr, Hrec.
  assert (Hint : forall h', arrays h' = arrays h -> records h' = records h ->
                            internal st h' = internal st h).
  { intros h' Ha Hr. unfold internal, queue_of, currentTrack_of.
    by rewrite Ha, Hr. }
  split_and!.
  - done.
  - done.
  - by apply Hint.
  - intros f h2. subst h2. unfold mutate. rewrite Hview. simpl.
    split_and!; [done|done|by apply Hint|].
    intros s' Hne. rewrite lookup_insert_ne by done.
    subst h1. simpl. by rewrite lookup_insert_ne.
  - intros f. unfold mutate. rewrite Hview. simpl.
    by rewrite lookup_alter_eq.
  - intros f l Hl. unfold mutate. rewrite Hview. simpl. rewrite Hl. simpl.
    by rewrite lookup_alter_eq.
Qed.

(** The amended statement at the sample heap: a title assigned through
    the snapshot's [currentTrack] is read back from the controller's. *)
Lemma getState_copies_fields_only_witness :
  let rename := fun t => Controller.mkTrack
                  (Controller.t_src t) "renamed" (Controller.t_index t)
                  (Controller.t_originalIndex t) (Controller.t_id t)
                  (Controller.t_playlistId t) (Controller.t_sourceRoute t)
                  (Controller.t_peaks t) (Controller.t_duration t) in
  let s := fst (getState Samples.refs_AB Samples.heap_AB) in
  let h1 := snd (getState Samples.refs_AB Samples.heap_AB) in
  currentTrack Samples.refs_AB = Some 4%positive /\
  records (mutate s (CurrentTrackWrite rename) h1) !! 4%positive
    = rename <$> records Samples.heap_AB !! 4%positive.
Proof.
  intros rename s h1. split; [reflexivity|].
  apply (getState_copies_fields_only Samples.refs_AB Samples.heap_AB).
  reflexivity.
Defined.

End SnapshotFacts.

(** * Further properties of the controller *)

Module JsArrayMore.
Import JsArray JsArrayFacts.

Section More.
Context {A : Type}.
Implicit Types (arr : list A) (x : A).

Lemma relative_bounds len i : 0 <= len -> 0 <= relative len i <= len.
Proof. intros Hlen. unfold relative. destruct (Z.ltb_spec i 0); lia. Qed.

(** [slice(s)] followed by [slice(0, s)] is a rotation of the array,
    whatever the integer [s]. *)
Lemma rotation_split arr s :
  let k := Z.to_nat (relative (Z.of_nat (length arr)) s) in
  slice_from arr s = drop k arr /\ slice arr 0 s = take k arr.
Proof.
  intros k. pose proof (relative_bounds (Z.of_nat (length arr)) s) as Hk.
  unfold slice_from, slice.
  rewrite (relative_in_range _ (Z.of_nat (length arr))) by lia.
  rewrite (relative_in_range _ 0) by lia. fold k. split.
  - apply take_ge. rewrite length_drop. lia.
  - simpl. by rewrite Z.sub_0_r.
Qed.

Lemma rotation_perm arr s : slice_from arr s ++ slice arr 0 s ≡ₚ arr.
Proof.
  destruct (rotation_split arr s) as [-> ->].
  by rewrite Permutation_app_comm, take_drop.
Qed.

Lemma filter_index_ne_from arr : forall (o n : nat),
  List.map snd
    (List.filter (fun p => negb (fst p =? Z.of_nat (o + n)))
                 (imap (fun i x => (Z.of_nat (o + i), x)) arr))
  = delete n arr.
Proof.
  induction arr as [|x arr IH]; intros o n; [done|].
  simpl. rewrite Nat.add_0_r.
  destruct n as [|n].
  - rewrite Nat.add_0_r, Z.eqb_refl. simpl.
    clear IH. assert (forall l : list A, forall j : nat,
      List.map snd (List.filter (fun p => negb (fst p =? Z.of_nat o))
        (imap (fun i x => (Z.of_nat (o + S (j + i)), x)) l)) = l) as Hrest.
    { induction l as [|y l IHl]; intros j; [done|]. simpl.
      destruct (Z.eqb_spec (Z.of_nat (o + S (j + 0))) (Z.of_nat o)); [lia|].
      simpl. f_equal. rewrite <- (IHl (S j)) at 2.
      do 2 f_equal. apply imap_ext. intros i z _. simpl. do 2 f_equal. lia. }
    rewrite <- (Hrest arr 0%nat) at 2. do 2 f_equal.
  - destruct (Z.eqb_spec (Z.of_nat o) (Z.of_nat (o + S n))); [lia|].
    simpl. f_equal. rewrite <- (IH (S o) n).
    f_equal. replace (S o + n)%nat with (o + S n)%nat by lia. f_equal.
    apply imap_ext. intros i z _. simpl. do 2 f_equal. lia.
Qed.

(** [filter((_, i) => i !== n)] drops exactly the cell [n]. *)
Lemma filter_index_ne_delete arr (n : nat) :
  filter_index_ne arr (Z.of_nat n) = delete n arr.
Proof.
  unfold filter_index_ne. rewrite <- (filter_index_ne_from arr 0 n). done.
Qed.

Lemma insert_at_perm arr (i : nat) x :
  take i arr ++ x :: drop i arr ≡ₚ x :: arr.
Proof.
  rewrite <- Permutation_middle. by rewrite take_drop.
Qed.

Lemma delete_insert_at arr (i : nat) x :
  (i <= length arr)%nat -> delete i (take i arr ++ x :: drop i arr) = arr.
Proof.
  intros Hi. apply list_eq. intros k.
  rewrite lookup_delete_at.
  destruct (decide (k < i)%nat).
  - rewrite lookup_insert_at by done. by destruct (decide (k < i)%nat).
  - rewrite lookup_insert_at by done.
    destruct (decide (S k < i)%nat); [lia|].
    destruct (decide (S k = i)); [lia|]. f_equal. lia.
Qed.

Lemma insert_at_delete arr (i : nat) x :
  arr !! i = Some x ->
  take i (delete i arr) ++ x :: drop i (delete i arr) = arr.
Proof.
  intros Hx. pose proof (lookup_lt_Some _ _ _ Hx) as Hlt.
  apply list_eq. intros k.
  rewrite lookup_insert_at by (rewrite length_delete_lt; lia).
  destruct (decide (k < i)%nat).
  - rewrite lookup_delete_at. by destruct (decide (k < i)%nat).
  - destruct (decide (k = i)) as [->|]; [done|].
    rewrite lookup_delete_at.
    destruct (decide (k - 1 < i)%nat); [lia|]. f_equal. lia.
Qed.

Lemma lookup_insert_at_eq arr (i : nat) x :
  (i <= length arr)%nat -> (take i arr ++ x :: drop i arr) !! i = Some x.
Proof.
  intros Hi. rewrite lookup_insert_at by done.
  destruct (decide (i < i)%nat); [lia|]. by destruct (decide (i = i)).
Qed.
End More.

End JsArrayMore.

Module ControllerMore.
Import JsArray JsArrayFacts JsArrayMore Controller ControllerFacts ControllerRuns.

(** ** The queue position over whole runs *)

Lemma index_ok_at_zero st : queueIndex st = 0 -> index_ok st.
Proof.
  intros H0. unfold index_ok, valid_index, qlen. rewrite H0.
  destruct (queue st) as [|x q]; [by right|left]. simpl. lia.
Qed.

Lemma index_ok_frame st st' :
  queue st' = queue st -> queueIndex st' = queueIndex st ->
  index_ok st -> index_ok st'.
Proof.
  unfold index_ok, valid_index, qlen. by intros -> ->.
Qed.

Lemma index_ok_playFromQueue qi st :
  index_ok st -> index_ok (playFromQueue qi st).
Proof.
  intros Hok. unfold playFromQueue.
  destruct (Z.ltb_spec qi 0); [done|].
  destruct (Z.leb_spec (qlen st) qi); [done|]. simpl.
  destruct (get (queue st) qi); [|done].
  left. unfold valid_index, qlen in *. simpl. lia.
Qed.

Lemma index_ok_at_zero_inv random ts s st :
  queueIndex (addPlaylistToQueue random ts s st) = 0.
Proof.
  unfold addPlaylistToQueue.
  destruct (assign_ids (queueIdCounter st) 0 ts) as [newTracks c]. simpl.
  repeat case_match; done.
Qed.

Lemma index_ok_addPlaylistToQueue random ts s st :
  index_ok (addPlaylistToQueue random ts s st).
Proof. apply index_ok_at_zero, index_ok_at_zero_inv. Qed.

Lemma index_ok_toggleShuffle random st :
  index_ok st -> index_ok (toggleShuffle random st).
Proof.
  intros Hok. unfold toggleShuffle. simpl.
  destruct (negb (shuffle st) && (1 <? qlen (set_shuffle (negb (shuffle st)) st)));
    [|by eapply index_ok_frame].
  apply index_ok_at_zero. repeat case_match; done.
Qed.

Lemma index_ok_exec random op st :
  index_ok st -> op_in_range op st -> index_ok (exec random op st).
Proof.
  intros Hok Hr. destruct op; simpl in *;
    try (eapply index_ok_frame; [| |exact Hok];
         unfold togglePlay, pause, seek, toggleLoop, toggleQueueExpanded,
           registerPlaylist, unregisterPlaylist, onPlay, onPause,
           timeAdvanced, metadataLoaded, waveformLoaded;
         repeat case_match; done).
  - (* playTrack *)
    unfold playTrack.
    destruct (playlists st !! playlistId) as [pl|]; [destruct (qlen st =? 0)|];
      (eapply index_ok_frame; [done|done|]);
      [apply index_ok_addPlaylistToQueue|done|done].
  - by apply index_ok_playFromQueue.
  - (* playNext *)
    unfold playNext. repeat case_match; try done;
      by apply index_ok_playFromQueue.
  - unfold playPrev. repeat case_match; try done;
      by apply index_ok_playFromQueue.
  - by right.
  - by apply (index_ok_edit (Add track)).
  - apply index_ok_addPlaylistToQueue.
  - by apply (index_ok_edit (Remove index)).
  - by apply (index_ok_edit (Reorder fromIndex toIndex)).
  - by apply index_ok_toggleShuffle.
  - unfold handleTrackEnd, playNext. repeat case_match; try done;
      by apply index_ok_playFromQueue.
Qed.

Lemma index_ok_run random ops : forall st,
  index_ok st -> run_in_range random ops st -> index_ok (run random ops st).
Proof.
  induction ops as [|op ops IH]; intros st Hok Hr; [done|].
  destruct Hr as [Hop Hr]. simpl. apply IH; [|done]. by apply index_ok_exec.
Qed.

(** X1. On every run from the initial state whose index arguments lie
    inside the queue, [queueIndex] is a valid index whenever the queue is
    not empty and is 0 when it is empty: playing, skipping, stopping,
    shuffling and repopulating keep it so, as the queue edits do. *)
Theorem queueIndex_valid_on_runs random (ops : list Op) :
  unit_range random -> run_in_range random ops init ->
  let st := run random ops init in
  (queue st <> [] -> valid_index st) /\
  (queue st = [] -> queueIndex st = 0).
Proof.
  intros _ Hr st.
  assert (Hok : index_ok st) by (by apply index_ok_run; [right|]).
  destruct Hok as [Hv|[Hq H0]]; split; try done.
  intros Hq. unfold valid_index, qlen in Hv. rewrite Hq in Hv. simpl in Hv. lia.
Qed.

Lemma half_unit_range : unit_range Samples.half.
Proof. intros n. split; [discriminate|reflexivity]. Defined.

(** Checks [run_in_range] on a concrete run, one operation at a time. *)
Ltac between := split; [intros H; discriminate H|reflexivity].
Ltac range_step :=
  split;
  [first [ intros pl Hpl Hq Hsh; vm_compute in Hsh;
           first [discriminate Hsh
                 | vm_compute in Hpl; injection Hpl as <-; vm_compute; between]
         | vm_compute; first [exact I | split; between | between ] ]
  |].

Lemma session_in_range : run_in_range Samples.half MoreSamples.session init.
Proof.
  unfold MoreSamples.session. do 13 range_step. exact I.
Defined.

(** The theorem on the sample session. *)
Lemma queueIndex_valid_on_runs_witness :
  queue (run Samples.half MoreSamples.session init) <> [] /\
  valid_index (run Samples.half MoreSamples.session init).
Proof.
  assert (Hne : queue (run Samples.half MoreSamples.session init) <> [])
    by (vm_compute; discriminate).
  split; [done|].
  by apply (queueIndex_valid_on_runs Samples.half MoreSamples.session
              half_unit_range session_in_range).
Defined.

Example session_state :
  let st := run Samples.half MoreSamples.session init in
  t_title <$> queue st = ["C"; "A"; "D"; "B"] /\ queueIndex st = 1 /\
  ids_of (queue st) = [8; 6; 9; 7] /\
  (t_title <$> currentTrack st) = Some "A".
Proof. vm_compute. done. Qed.

(** ** The media element and the current track *)

Lemma src_in_sync_playFromQueue qi st :
  src_in_sync st -> src_in_sync (playFromQueue qi st).
Proof.
  intros Hs. unfold playFromQueue. repeat case_match; done.
Qed.

Lemma src_in_sync_frame st st' :
  a_src (audio st') = a_src (audio st) -> currentTrack st' = currentTrack st ->
  src_in_sync st -> src_in_sync st'.
Proof. unfold src_in_sync. by intros -> ->. Qed.

Lemma src_in_sync_exec random op st :
  src_in_sync st -> src_in_sync (exec random op st).
Proof.
  intros Hs. destruct op; simpl;
    try (apply (src_in_sync_frame st); [| |exact Hs];
         unfold togglePlay, pause, seek, toggleLoop,
           toggleQueueExpanded, registerPlaylist, unregisterPlaylist,
           onPlay, onPause, timeAdvanced, metadataLoaded, addToQueue,
           removeFromQueue, reorderQueue, toggleShuffle, addPlaylistToQueue;
         repeat case_match; done).
  - done.
  - by apply src_in_sync_playFromQueue.
  - unfold playNext. repeat case_match;
      first [done | by apply src_in_sync_playFromQueue
            | by apply (src_in_sync_frame st)].
  - unfold playPrev. repeat case_match;
      first [done | by apply src_in_sync_playFromQueue
            | by apply (src_in_sync_frame st)].
  - done.
  - unfold handleTrackEnd, playNext. repeat case_match;
      first [done | by apply src_in_sync_playFromQueue
            | by apply (src_in_sync_frame st)].
  - unfold waveformLoaded, src_in_sync in *.
    destruct (currentTrack st) as [t|] eqn:Ht; [|by rewrite Ht].
    destruct (String.eqb (t_src t) src); [done|by rewrite Ht].
Qed.


(** ** Dragging a row and dragging it back *)

(** Case analysis on integer comparisons, innermost first. *)
Ltac plain t :=
  lazymatch t with
  | context [if _ then _ else _] => fail
  | _ => idtac
  end.
Ltac zcases_inner :=
  repeat (match goal with
          | |- context [?a <? ?b] => plain a; plain b; destruct (Z.ltb_spec a b)
          | |- context [?a <=? ?b] => plain a; plain b; destruct (Z.leb_spec a b)
          | |- context [?a =? ?b] => plain a; plain b; destruct (Z.eqb_spec a b)
          end; simpl).

Lemma reorderQueue_touches_queue_only a b st :
  reorderQueue a b st =
    set_queueIndex (queueIndex (reorderQueue a b st))
      (set_queue (queue (reorderQueue a b st)) st).
Proof.
  unfold reorderQueue. destruct (splice (queue st) a 1 []) as [removed q1].
  destruct st. simpl. repeat case_match; done.
Qed.

Lemma removeFromQueue_touches_queue_only i st :
  removeFromQueue i st =
    set_queueIndex (queueIndex (removeFromQueue i st))
      (set_queue (queue (removeFromQueue i st)) st).
Proof.
  unfold removeFromQueue. destruct st. simpl. repeat case_match; done.
Qed.

Lemma set_queue_back st q i :
  set_queueIndex (queueIndex st) (set_queue (queue st)
    (set_queueIndex i (set_queue q st))) = st.
Proof. by destruct st. Qed.

(** X7. Dragging a queue row from [a] to [b] and then the row at [b]
    back to [a] restores the controller state: the queue is in its old
    order and [queueIndex] is what it was. *)
Theorem reorderQueue_round_trip (a b : Z) (st : State) :
  0 <= a < qlen st -> 0 <= b < qlen st ->
  reorderQueue b a (reorderQueue a b st) = st.
Proof.
  intros Ha Hb.
  destruct (Z_of_index _ _ Ha) as (n & -> & Hn).
  destruct (Z_of_index _ _ Hb) as (m & -> & Hm). unfold qlen in *.
  destruct (lookup_lt_is_Some_2 (queue st) n) as [x Hx]; [lia|].
  set (st1 := reorderQueue (Z.of_nat n) (Z.of_nat m) st).
  assert (Hq1 : queue st1 = take m (delete n (queue st))
                              ++ x :: drop m (delete n (queue st)))
    by (apply queue_reorderQueue; [done|lia]).
  assert (Hi1 := queueIndex_reorderQueue n m x st Hx). fold st1 in Hi1.
  assert (Hd : length (delete n (queue st)) = (length (queue st) - 1)%nat)
    by (apply length_delete_lt; lia).
  assert (Hx1 : queue st1 !! m = Some x).
  { rewrite Hq1. apply lookup_insert_at_eq. lia. }
  assert (Hlen1 : length (queue st1) = length (queue st)).
  { rewrite Hq1, length_app, length_take. simpl. rewrite length_drop. lia. }
  assert (Hq2 : queue (reorderQueue (Z.of_nat m) (Z.of_nat n) st1) = queue st).
  { rewrite (queue_reorderQueue m n x st1 Hx1) by lia.
    rewrite Hq1, delete_insert_at by lia. by apply insert_at_delete. }
  assert (Hi2 : queueIndex (reorderQueue (Z.of_nat m) (Z.of_nat n) st1)
                = queueIndex st).
  { rewrite (queueIndex_reorderQueue m n x st1 Hx1), Hi1.
    zcases_inner; lia. }
  rewrite reorderQueue_touches_queue_only, Hq2, Hi2.
  unfold st1. rewrite (reorderQueue_touches_queue_only _ _ st).
  apply set_queue_back.
Qed.

(** The theorem on the sample state: the first row to the end and back. *)
Lemma reorderQueue_round_trip_witness :
  reorderQueue 3 0 (reorderQueue 0 3 Samples.playingC) = Samples.playingC.
Proof.
  apply reorderQueue_round_trip; split; (discriminate || reflexivity).
Defined.

(** ** Removing a row *)

Lemma splice_nothing_past_end {X} (arr : list X) start deleteCount :
  Z.of_nat (length arr) <= start ->
  splice arr start deleteCount [] = ([], arr).
Proof.
  intros Hs. unfold splice.
  assert (relative (Z.of_nat (length arr)) start = Z.of_nat (length arr)) as ->.
  { unfold relative. destruct (Z.ltb_spec start 0); lia. }
  replace (Z.min (Z.max deleteCount 0) (Z.of_nat (length arr) - Z.of_nat (length arr)))
    with 0 by lia.
  rewrite Z.add_0_r, Nat2Z.id. simpl.
  by rewrite take_0, take_ge, drop_ge, app_nil_r by lia.
Qed.

(** X8. [removeFromQueue] with an index inside the queue removes that one
    row and keeps the others in their order; with an index past the end
    it leaves the whole state as it is. *)
Theorem removeFromQueue_removes_one_row (index : Z) (st : State) :
  (0 <= index < qlen st ->
   queue (removeFromQueue index st) = delete (Z.to_nat index) (queue st) /\
   qlen (removeFromQueue index st) = qlen st - 1) /\
  (index_ok st -> qlen st <= index -> removeFromQueue index st = st).
Proof.
  split.
  - intros Hi. destruct (Z_of_index _ _ Hi) as (n & -> & Hn). unfold qlen in *.
    destruct (lookup_lt_is_Some_2 (queue st) n) as [x Hx]; [lia|].
    rewrite (queue_removeFromQueue n x st Hx), Nat2Z.id.
    split; [done|]. rewrite length_delete_lt by lia. lia.
  - intros Hok Hi. unfold removeFromQueue, qlen in *.
    rewrite splice_nothing_past_end by done. simpl.
    destruct Hok as [Hv|[Hq H0]].
    + unfold valid_index, qlen in Hv. destruct st. simpl in *. zcases; (lia || done).
    + destruct st. simpl in *. subst. simpl in *. zcases; (lia || done).
Qed.

(** The theorem on the sample state. *)
Lemma removeFromQueue_removes_one_row_witness :
  queue (removeFromQueue 1 Samples.playingC)
    = [Samples.qA; Samples.qC; Samples.qD] /\
  removeFromQueue 4 Samples.playingC = Samples.playingC.
Proof.
  split.
  - apply (proj1 (removeFromQueue_removes_one_row 1 Samples.playingC)).
    split; (discriminate || reflexivity).
  - apply (proj2 (removeFromQueue_removes_one_row 4 Samples.playingC)).
    + left. split; (discriminate || reflexivity).
    + discriminate.
Defined.

(** X11. Appending a track and removing the row just appended restores
    the queue and [queueIndex]; the id it was given is spent. *)
Theorem addToQueue_then_remove (track : Track) (st : State) :
  index_ok st ->
  let st' := removeFromQueue (qlen st) (addToQueue track st) in
  queue st' = queue st /\ queueIndex st' = queueIndex st /\
  queueIdCounter st' = queueIdCounter st + 1 /\
  currentTrack st' = currentTrack st /\ audio st' = audio st.
Proof.
  intros Hok. cbv zeta. unfold qlen at 1 2 3 4 5.
  set (st1 := addToQueue track st).
  set (x := with_id (queueIdCounter st + 1) track).
  assert (Hq1 : queue st1 = queue st ++ [x]) by done.
  assert (Hx : queue st1 !! length (queue st) = Some x).
  { rewrite Hq1. by rewrite lookup_app_r, Nat.sub_diag by lia. }
  assert (Hq : queue (removeFromQueue (Z.of_nat (length (queue st))) st1)
               = queue st).
  { rewrite (queue_removeFromQueue _ x st1 Hx), Hq1.
    rewrite delete_take_drop, take_app_length.
    rewrite drop_ge by (rewrite length_app; simpl; lia). apply app_nil_r. }
  assert (Hi : queueIndex (removeFromQueue (Z.of_nat (length (queue st))) st1)
               = queueIndex st).
  { rewrite (queueIndex_removeFromQueue _ x st1 Hx).
    unfold qlen. rewrite Hq1, length_app. simpl.
    change (queueIndex st1) with (queueIndex st).
    destruct Hok as [Hv|[Hq0 H0]].
    - unfold valid_index, qlen in Hv. zcases; lia.
    - rewrite Hq0, H0. done. }
  split; [done|]. split; [done|].
  rewrite removeFromQueue_touches_queue_only. done.
Qed.

(** The theorem on the sample state. *)
Lemma addToQueue_then_remove_witness :
  queue (removeFromQueue 4 (addToQueue Samples.D Samples.playingC))
    = queue Samples.playingC.
Proof.
  apply (addToQueue_then_remove Samples.D Samples.playingC).
  left. split; (discriminate || reflexivity).
Defined.

(** ** The queue as a collection of items *)

Lemma queue_reorderQueue_perm a b st :
  0 <= a < qlen st -> 0 <= b < qlen st ->
  queue (reorderQueue a b st) ≡ₚ queue st.
Proof.
  intros Ha Hb.
  destruct (Z_of_index _ _ Ha) as (n & -> & Hn).
  destruct (Z_of_index _ _ Hb) as (m & -> & Hm). unfold qlen in *.
  destruct (lookup_lt_is_Some_2 (queue st) n) as [x Hx]; [lia|].
  rewrite (queue_reorderQueue n m x st Hx) by lia.
  rewrite insert_at_perm. symmetry. by apply delete_Permutation.
Qed.

Lemma toggleShuffle_enabled random st (p : nat) y :
  shuffle st = false -> 1 < qlen st ->
  queueIndex st = Z.of_nat p -> queue st !! p = Some y ->
  toggleShuffle random st =
    set_queueIndex 0
      (set_queue (y :: shuffleArray random (randomCalls st) (delete p (queue st)))
         (add_randomCalls (length (delete p (queue st)) - 1)
            (set_shuffle true st))).
Proof.
  intros Hsh Hlen Hp Hy. pose proof (lookup_lt_Some _ _ _ Hy) as Hlt.
  unfold toggleShuffle. rewrite Hsh. simpl. unfold qlen in *. simpl.
  destruct (Z.ltb_spec 1 (Z.of_nat (length (queue st)))); [|lia].
  rewrite Hp, get_nat, Hy.
  replace (Z.of_nat p + 1) with (Z.of_nat (S p)) by lia.
  rewrite slice_prefix, slice_from_in_range by lia.
  by rewrite <- delete_take_drop.
Qed.

Lemma toggleShuffle_disabled_or_short random st :
  shuffle st = true \/ qlen st <= 1 ->
  toggleShuffle random st = set_shuffle (negb (shuffle st)) st.
Proof.
  intros H. unfold toggleShuffle. simpl. unfold qlen in *. simpl.
  destruct H as [->|H]; [done|].
  destruct (Z.ltb_spec 1 (Z.of_nat (length (queue st)))); [lia|].
  by rewrite andb_false_r.
Qed.

Lemma queue_toggleShuffle_perm random st :
  unit_range random -> index_ok st ->
  queue (toggleShuffle random st) ≡ₚ queue st.
Proof.
  intros Hr Hok.
  destruct (shuffle st) eqn:Hsh;
    [by rewrite toggleShuffle_disabled_or_short by (by left)|].
  destruct (Z.le_gt_cases (qlen st) 1) as [Hshort|Hlong];
    [by rewrite toggleShuffle_disabled_or_short by (by right)|].
  destruct Hok as [Hv|[Hq _]];
    [|unfold qlen in Hlong; rewrite Hq in Hlong; simpl in Hlong; lia].
  destruct (Z_of_index _ _ Hv) as (p & Hp & Hplt). unfold qlen in *.
  destruct (lookup_lt_is_Some_2 (queue st) p) as [y Hy]; [lia|].
  rewrite (toggleShuffle_enabled random st p y) by (done || lia). simpl.
  rewrite shuffleArray_perm by done. symmetry. by apply delete_Permutation.
Qed.

Lemma addPlaylistToQueue_shuffled random ts (n : nat) x st :
  shuffle st = true ->
  imap (queue_item (queueIdCounter st)) ts !! n = Some x ->
  let items := imap (queue_item (queueIdCounter st)) ts in
  let st' := addPlaylistToQueue random ts (Some (Z.of_nat n)) st in
  queue st' = x :: shuffleArray random (randomCalls st) (delete n items) /\
  queueIndex st' = 0.
Proof.
  intros Hsh Hx items st'. subst st'. unfold addPlaylistToQueue.
  rewrite assign_ids_from_zero. fold items. simpl. rewrite Hsh. simpl.
  rewrite get_nat. fold items in Hx. rewrite Hx. simpl.
  by rewrite filter_index_ne_delete.
Qed.

Lemma queue_addPlaylistToQueue_perm random ts s st :
  unit_range random ->
  (shuffle st = true -> 0 <= default 0 s < Z.of_nat (length ts)) ->
  queue (addPlaylistToQueue random ts s st)
    ≡ₚ imap (queue_item (queueIdCounter st)) ts.
Proof.
  intros Hr Hs. set (items := imap (queue_item (queueIdCounter st)) ts).
  destruct (shuffle st) eqn:Hsh.
  - destruct (Z_of_index _ _ (Hs eq_refl)) as (n & Hn & Hlt).
    destruct (lookup_lt_is_Some_2 items n) as [x Hx];
      [unfold items; rewrite length_imap; lia|].
    assert (addPlaylistToQueue random ts s st
            = addPlaylistToQueue random ts (Some (Z.of_nat n)) st) as ->.
    { unfold addPlaylistToQueue. by rewrite Hn. }
    destruct (addPlaylistToQueue_shuffled random ts n x st Hsh Hx) as [-> _].
    fold items. rewrite shuffleArray_perm by done.
    symmetry. by apply delete_Permutation.
  - unfold addPlaylistToQueue. rewrite assign_ids_from_zero. fold items.
    simpl. rewrite Hsh. simpl. apply rotation_perm.
Qed.

(** ** Populating the queue with shuffle on *)

(** X9. With shuffle on, [Math.random] answering in [0, 1) and a start
    index inside the track list, [addPlaylistToQueue] replaces the queue
    by the item of the clicked track followed by a permutation of the
    items of all other tracks, and sets [queueIndex] to 0. *)
Theorem addPlaylistToQueue_with_shuffle random (ts : list Track) (s : nat) st :
  unit_range random -> shuffle st = true -> (s < length ts)%nat ->
  let items := imap (queue_item (queueIdCounter st)) ts in
  let st' := addPlaylistToQueue random ts (Some (Z.of_nat s)) st in
  exists t rest,
    ts !! s = Some t /\
    queue st' = queue_item (queueIdCounter st) s t :: rest /\
    rest ≡ₚ delete s items /\
    queueIndex st' = 0 /\
    length (queue st') = length ts.
Proof.
  intros Hr Hsh Hs items st'.
  destruct (lookup_lt_is_Some_2 ts s Hs) as [t Ht].
  assert (Hx : items !! s = Some (queue_item (queueIdCounter st) s t)).
  { unfold items. by rewrite list_lookup_imap, Ht. }
  destruct (addPlaylistToQueue_shuffled random ts s _ st Hsh Hx) as [Hq Hi].
  fold items st' in Hq, Hi.
  exists t, (shuffleArray random (randomCalls st) (delete s items)).
  split_and!; [done|done|by apply shuffleArray_perm|done|].
  rewrite Hq. simpl. rewrite (Permutation_length (shuffleArray_perm _ _ _ Hr)).
  rewrite length_delete_lt by (unfold items; rewrite length_imap; lia).
  unfold items. rewrite length_imap. lia.
Qed.

(** The theorem on the sample playlist, started at its third track. *)
Lemma addPlaylistToQueue_with_shuffle_witness :
  exists t rest,
    [Samples.A; Samples.B; Samples.C; Samples.D] !! 2%nat = Some t /\
    queue (addPlaylistToQueue Samples.half
             [Samples.A; Samples.B; Samples.C; Samples.D] (Some 2)
             (set_shuffle true init))
      = queue_item 0 2 t :: rest /\
    rest ≡ₚ delete 2%nat (imap (queue_item 0)
                            [Samples.A; Samples.B; Samples.C; Samples.D]) /\
    queueIndex (addPlaylistToQueue Samples.half
                  [Samples.A; Samples.B; Samples.C; Samples.D] (Some 2)
                  (set_shuffle true init)) = 0 /\
    length (queue (addPlaylistToQueue Samples.half
                     [Samples.A; Samples.B; Samples.C; Samples.D] (Some 2)
                     (set_shuffle true init))) = 4%nat.
Proof.
  apply (addPlaylistToQueue_with_shuffle Samples.half
           [Samples.A; Samples.B; Samples.C; Samples.D] 2%nat
           (set_shuffle true init) half_unit_range).
  - reflexivity.
  - simpl. lia.
Defined.

(** ** Starting a track from a playlist view *)

(** X10. [playTrack] on an empty queue, for a track of a registered
    playlist that carries its own position as [index]: the whole playlist
    is queued, [queueIndex] is 0 and the item there is the track just
    started, shuffle on or off.  On a non-empty queue, or for a playlist
    that is not registered, the queue and [queueIndex] stay as they are.
    In both cases the track becomes the current one and is loaded and
    started. *)
Theorem playTrack_queues_its_playlist random track playlistId sourceRoute st :
  (forall playlist (i : nat),
     unit_range random ->
     playlists st !! playlistId = Some playlist -> queue st = [] ->
     tracks playlist !! i = Some track -> t_index track = Some (Z.of_nat i) ->
     let st' := playTrack random track playlistId sourceRoute st in
     queue st' ≡ₚ imap (queue_item (queueIdCounter st)) (tracks playlist) /\
     queueIndex st' = 0 /\
     get (queue st') 0 = Some (queue_item (queueIdCounter st) i track)) /\
  (queue st <> [] \/ playlists st !! playlistId = None ->
   let st' := playTrack random track playlistId sourceRoute st in
   queue st' = queue st /\ queueIndex st' = queueIndex st) /\
  (let st' := playTrack random track playlistId sourceRoute st in
   currentTrack st' = Some (as_current_from playlistId sourceRoute track) /\
   a_src (audio st') = t_src track /\ paused (audio st') = false /\
   miniPlayerVisible st' = true).
Proof.
  split; [|split].
  - intros pl i Hr Hpl Hq Hi Hidx st'.
    pose proof (lookup_lt_Some _ _ _ Hi) as Hlt.
    set (items := imap (queue_item (queueIdCounter st)) (tracks pl)).
    assert (Hx : items !! i = Some (queue_item (queueIdCounter st) i track)).
    { unfold items. by rewrite list_lookup_imap, Hi. }
    assert (Hst' : queue st' = queue (addPlaylistToQueue random (tracks pl)
                                        (Some (Z.of_nat i)) st) /\
                   queueIndex st' = queueIndex (addPlaylistToQueue random
                                        (tracks pl) (Some (Z.of_nat i)) st)).
    { subst st'. unfold playTrack, qlen. rewrite Hpl, Hq, Hidx. done. }
    destruct Hst' as [-> ->]. split; [|split].
    + apply queue_addPlaylistToQueue_perm; [done|]. simpl. lia.
    + apply index_ok_at_zero_inv.
    + destruct (shuffle st) eqn:Hsh.
      * by destruct (addPlaylistToQueue_shuffled random (tracks pl) i _ st Hsh Hx)
          as [-> _].
      * unfold addPlaylistToQueue. rewrite assign_ids_from_zero. fold items.
        simpl. rewrite Hsh. simpl.
        assert (i < length items)%nat by (unfold items; rewrite length_imap; lia).
        rewrite slice_from_in_range, slice_prefix by lia.
        change 0 with (Z.of_nat 0). rewrite get_nat.
        rewrite lookup_app_l by (rewrite length_drop; lia).
        rewrite lookup_drop, Nat.add_0_r. done.
  - intros Hno st'. subst st'. unfold playTrack, qlen.
    destruct (playlists st !! playlistId) as [pl|]; [|done].
    destruct Hno as [Hne|[=]].
    destruct (Z.eqb_spec (Z.of_nat (length (queue st))) 0) as [H0|_]; [|done].
    destruct (queue st); [done|simpl in H0; lia].
  - unfold playTrack. done.
Qed.

(** The theorem for the third track of the sample playlist. *)
Lemma playTrack_queues_its_playlist_witness :
  let st := registerPlaylist "playlist-home-0"
              [Samples.A; Samples.B; Samples.C; Samples.D] None init in
  get (queue (playTrack Samples.half Samples.C "playlist-home-0" "/" st)) 0
    = Some (queue_item 0 2 Samples.C).
Proof.
  intros st.
  apply (proj1 (playTrack_queues_its_playlist Samples.half Samples.C
                  "playlist-home-0" "/" st)
           (mkPlaylist [Samples.A; Samples.B; Samples.C; Samples.D] None)
           2%nat half_unit_range); reflexivity.
Defined.

(** ** Ids of the items in the queue *)

Lemma sorted_lt_NoDup (l : list Z) : StronglySorted Z.lt l -> NoDup l.
Proof.
  induction 1 as [|i ids _ IH Hall]; constructor; [|done].
  intros Hin. rewrite Forall_forall in Hall. specialize (Hall _ Hin). lia.
Qed.

Lemma elem_of_fresh_ids i c n :
  i ∈ fresh_ids c n -> c < i <= c + Z.of_nat n.
Proof.
  unfold fresh_ids. intros (k & -> & Hk%elem_of_seq)%list_elem_of_fmap. lia.
Qed.

Lemma omap_sublist {X Y} (f : X -> option Y) (l1 l2 : list X) :
  sublist l1 l2 -> sublist (omap f l1) (omap f l2).
Proof.
  induction 1 as [|x l1 l2 _ IH|x l1 l2 _ IH]; simpl.
  - constructor.
  - destruct (f x); [by constructor|done].
  - destruct (f x); [by constructor|done].
Qed.

Lemma ids_of_complete (q : list Track) :
  (forall item, item ∈ q -> is_Some (t_id item)) ->
  length (ids_of q) = length q.
Proof.
  induction q as [|x q IH]; intros Hall; [done|]. unfold ids_of in *. simpl.
  destruct (Hall x) as [i ->]; [by left|]. simpl. f_equal.
  apply IH. intros item Hin. apply Hall. by right.
Qed.

Lemma queue_ids_bounded st i :
  ids_in_sequence st ->
  (forall item, item ∈ queue st -> carries_issued_id st item) ->
  i ∈ ids_of (queue st) -> i <= queueIdCounter st.
Proof.
  intros [H0 Hseq] Hcarry (item & Hin & Hid)%list_elem_of_omap.
  destruct (Hcarry item Hin) as (i' & Hid' & Hissued).
  rewrite Hid in Hid'. injection Hid' as <-.
  rewrite Hseq in Hissued. apply elem_of_fresh_ids in Hissued. lia.
Qed.

Lemma carries_exec random op st :
  (forall item, item ∈ queue st -> carries_issued_id st item) ->
  forall item, item ∈ queue (exec random op st) ->
               carries_issued_id (exec random op st) item.
Proof.
  intros Hst item [Hin|Hin]%queue_exec; [|done].
  destruct (Hst item Hin) as (i & Hi & Hissued). exists i. split; [done|].
  destruct (exec_issues random op st) as [n [-> _]].
  apply elem_of_app. by left.
Qed.

Lemma NoDup_ids_frame st st' :
  queue st' = queue st -> NoDup (ids_of (queue st)) ->
  NoDup (ids_of (queue st')).
Proof. by intros ->. Qed.

Lemma NoDup_ids_perm (q q' : list Track) :
  q' ≡ₚ q -> NoDup (ids_of q) -> NoDup (ids_of q').
Proof. unfold ids_of. by intros ->. Qed.

Lemma NoDup_ids_addPlaylistToQueue random ts s st :
  unit_range random ->
  (shuffle st = true -> 0 <= default 0 s < Z.of_nat (length ts)) ->
  NoDup (ids_of (queue (addPlaylistToQueue random ts s st))).
Proof.
  intros Hr Hs.
  eapply NoDup_ids_perm; [by apply queue_addPlaylistToQueue_perm|].
  destruct (ids_of_assign_ids (queueIdCounter st) ts) as [Hids _].
  rewrite assign_ids_from_zero in Hids. simpl in Hids. rewrite Hids.
  apply sorted_lt_NoDup, fresh_ids_sorted.
Qed.

Lemma NoDup_ids_exec random op st :
  unit_range random -> ids_kept st -> op_in_range op st ->
  NoDup (ids_of (queue (exec random op st))).
Proof.
  intros Hr (Hseq & Hcarry & Hok & Hnd) Hop. destruct op; simpl in *;
    try (apply (NoDup_ids_frame st); [|exact Hnd];
         unfold togglePlay, pause, seek, playNext, playPrev, toggleLoop,
           toggleQueueExpanded, registerPlaylist, unregisterPlaylist,
           onPlay, onPause, handleTrackEnd, playNext, timeAdvanced,
           metadataLoaded, waveformLoaded, playFromQueue;
         repeat case_match; done).
  - (* playTrack *)
    unfold playTrack.
    destruct (playlists st !! playlistId) as [pl|] eqn:Hpl; [|done].
    destruct (Z.eqb_spec (qlen st) 0) as [H0|_]; [|done]. simpl.
    apply NoDup_ids_addPlaylistToQueue; [done|]. intros Hsh.
    apply (Hop pl); [done| |done].
    unfold qlen in H0. destruct (queue st); [done|simpl in H0; lia].
  - (* stop *) constructor.
  - (* addToQueue *)
    unfold addToQueue, ids_of. simpl. rewrite omap_app. simpl.
    apply NoDup_app. split; [done|]. split; [|apply NoDup_singleton].
    intros i Hin ->%list_elem_of_singleton.
    pose proof (queue_ids_bounded st _ Hseq Hcarry Hin). lia.
  - by apply NoDup_ids_addPlaylistToQueue.
  - (* removeFromQueue *)
    destruct (Z_of_index _ _ Hop) as (n & -> & Hn). unfold qlen in *.
    destruct (lookup_lt_is_Some_2 (queue st) n) as [x Hx]; [lia|].
    rewrite (queue_removeFromQueue n x st Hx).
    eapply sublist_NoDup; [exact Hnd|apply omap_sublist, sublist_delete].
  - (* reorderQueue *)
    destruct Hop as [Ha Hb].
    eapply NoDup_ids_perm; [by apply queue_reorderQueue_perm|done].
  - (* toggleShuffle *)
    eapply NoDup_ids_perm; [by apply queue_toggleShuffle_perm|done].
Qed.

Lemma ids_kept_exec random op st :
  unit_range random -> ids_kept st -> op_in_range op st ->
  ids_kept (exec random op st).
Proof.
  intros Hr Hst Hop. assert (Hnd := NoDup_ids_exec random op st Hr Hst Hop).
  destruct Hst as (Hseq & Hcarry & Hok & _). split_and!; [| | |done].
  - destruct (exec_issues random op st) as [n Hn].
    by eapply ids_in_sequence_step.
  - by apply carries_exec.
  - by apply index_ok_exec.
Qed.

Lemma ids_kept_run random ops : forall st,
  unit_range random -> ids_kept st -> run_in_range random ops st ->
  ids_kept (run random ops st).
Proof.
  induction ops as [|op ops IH]; intros st Hr Hst Hops; [done|].
  destruct Hops as [Hop Hops]. simpl. apply IH; [done| |done].
  by apply ids_kept_exec.
Qed.

(** X3. On every run from the initial state with index arguments inside
    the queue, every item of the queue has an id and no two items of the
    queue have the same id: the ids tell the rows of the queue apart. *)
Theorem queue_items_have_distinct_ids random (ops : list Op) :
  unit_range random -> run_in_range random ops init ->
  let st := run random ops init in
  NoDup (ids_of (queue st)) /\
  length (ids_of (queue st)) = length (queue st) /\
  (forall i, i ∈ ids_of (queue st) -> 1 <= i <= queueIdCounter st).
Proof.
  intros Hr Hops st.
  assert (Hinit : ids_kept init).
  { split_and!; [by split| |by right|constructor].
    by intros item ?%elem_of_nil. }
  destruct (ids_kept_run random ops init Hr Hinit Hops)
    as (Hseq & Hcarry & _ & Hnd).
  fold st in Hseq, Hcarry, Hnd. split_and!; [done| |].
  - apply ids_of_complete. intros item Hin.
    destruct (Hcarry item Hin) as (i & -> & _). by eexists.
  - intros i Hin. split; [|by apply queue_ids_bounded].
    apply list_elem_of_omap in Hin as (item & Hitem & Hid).
    destruct (Hcarry item Hitem) as (i' & Hid' & Hissued).
    rewrite Hid in Hid'. injection Hid' as <-.
    destruct Hseq as [_ Hseq]. rewrite Hseq in Hissued.
    apply elem_of_fresh_ids in Hissued. lia.
Qed.

(** The theorem on the sample session. *)
Lemma queue_items_have_distinct_ids_witness :
  NoDup (ids_of (queue (run Samples.half MoreSamples.session init))).
Proof.
  apply (queue_items_have_distinct_ids Samples.half MoreSamples.session
           half_unit_range session_in_range).
Defined.

(** ** Skipping with loop on *)

Lemma playFromQueue_result qi st :
  0 <= qi < qlen st ->
  queueIndex (playFromQueue qi st) = qi /\
  queue (playFromQueue qi st) = queue st /\
  loop (playFromQueue qi st) = loop st /\
  currentTrack (playFromQueue qi st) = as_current <$> get (queue st) qi /\
  currentTime (audio (playFromQueue qi st)) = 0%Q /\
  paused (audio (playFromQueue qi st)) = false.
Proof.
  intros Hqi. destruct (playFromQueue_in_range qi st Hqi) as (t & Ht & ->).
  rewrite Ht. done.
Qed.

Lemma playNext_loop_step st :
  loop st = true -> valid_index st ->
  playNext st = playFromQueue ((queueIndex st + 1) mod qlen st) st.
Proof.
  intros Hl Hv. unfold valid_index in Hv. unfold playNext. rewrite Hl.
  destruct (Z.eqb_spec (qlen st) 0); [lia|].
  destruct (Z.ltb_spec (queueIndex st + 1) (qlen st)).
  - by rewrite Z.mod_small by lia.
  - replace (queueIndex st + 1) with (qlen st) by lia.
    by rewrite Z_mod_same_full.
Qed.

Lemma playNext_loop_iter st (k : nat) :
  loop st = true -> valid_index st ->
  let st' := Nat.iter k playNext st in
  queueIndex st' = (queueIndex st + Z.of_nat k) mod qlen st /\
  queue st' = queue st /\ loop st' = true.
Proof.
  intros Hl Hv. unfold valid_index in Hv.
  induction k as [|k IH]; simpl.
  - rewrite Z.add_0_r, Z.mod_small by lia. done.
  - destruct IH as (Hi & Hq & Hl').
    set (sk := Nat.iter k playNext st) in *.
    assert (Hlen : qlen sk = qlen st) by (unfold qlen; by rewrite Hq).
    assert (Hvk : valid_index sk).
    { unfold valid_index. rewrite Hlen, Hi. apply Z.mod_pos_bound. lia. }
    rewrite (playNext_loop_step sk Hl' Hvk).
    destruct (playFromQueue_result ((queueIndex sk + 1) mod qlen sk) sk)
      as (Hi' & Hq' & Hl'' & _).
    { apply Z.mod_pos_bound. lia. }
    rewrite Hi', Hq', Hl'', Hlen, Hi. split; [|done].
    rewrite Zplus_mod_idemp_l. f_equal. lia.
Qed.

(** X4. With loop on and a valid [queueIndex], [playNext] moves to the
    next item and from the last item back to the first: after [k] calls
    the position is [(queueIndex + k) mod N] for a queue of [N] items,
    the item there is the current track, and after [N] calls the
    position is where it started.  The queue itself is not touched. *)
Theorem playNext_cycles_with_loop (st : State) (k : nat) :
  loop st = true -> valid_index st ->
  let st' := Nat.iter (S k) playNext st in
  queueIndex st' = (queueIndex st + Z.of_nat (S k)) mod qlen st /\
  queue st' = queue st /\
  currentTrack st' = as_current <$> get (queue st) (queueIndex st') /\
  paused (audio st') = false /\
  queueIndex (Nat.iter (length (queue st)) playNext st) = queueIndex st.
Proof.
  intros Hl Hv st'.
  destruct (playNext_loop_iter st (S k) Hl Hv) as (Hi & Hq & _).
  fold st' in Hi, Hq. split; [done|]. split; [done|].
  destruct (playNext_loop_iter st k Hl Hv) as (Hik & Hqk & Hlk).
  set (sk := Nat.iter k playNext st) in *.
  assert (Hlen : qlen sk = qlen st) by (unfold qlen; by rewrite Hqk).
  assert (Hvk : valid_index sk).
  { unfold valid_index in *. rewrite Hlen, Hik. apply Z.mod_pos_bound. lia. }
  assert (Hst' : st' = playFromQueue ((queueIndex sk + 1) mod qlen sk) sk)
    by (by apply playNext_loop_step).
  destruct (playFromQueue_result ((queueIndex sk + 1) mod qlen sk) sk)
    as (Hi' & _ & _ & Hc & _ & Hp).
  { unfold valid_index in *. apply Z.mod_pos_bound. lia. }
  rewrite <- Hst' in Hi', Hc, Hp. split; [by rewrite Hc, Hi', Hqk|].
  split; [done|].
  destruct (playNext_loop_iter st (length (queue st)) Hl Hv) as (HiN & _).
  rewrite HiN. unfold valid_index, qlen in *.
  replace (queueIndex st + Z.of_nat (length (queue st)))
    with (queueIndex st + 1 * Z.of_nat (length (queue st))) by lia.
  rewrite Z_mod_plus_full. apply Z.mod_small. lia.
Qed.

(** The theorem on the sample state, with loop switched on. *)
Lemma playNext_cycles_with_loop_witness :
  queueIndex (Nat.iter 2 playNext (toggleLoop Samples.playingC)) = 0 /\
  queueIndex (Nat.iter 4 playNext (toggleLoop Samples.playingC)) = 2.
Proof.
  assert (Hl : loop (toggleLoop Samples.playingC) = true) by reflexivity.
  assert (Hv : valid_index (toggleLoop Samples.playingC))
    by (split; [discriminate|reflexivity]).
  split.
  - destruct (playNext_cycles_with_loop _ 1 Hl Hv) as (H & _). exact H.
  - destruct (playNext_cycles_with_loop _ 1 Hl Hv) as (_ & _ & _ & _ & H).
    exact H.
Defined.

(** ** Back after next *)

Lemma playPrev_at_start_of_track st :
  qlen st <> 0 -> currentTime (audio st) = 0%Q ->
  playPrev st =
    if 0 <=? queueIndex st - 1 then playFromQueue (queueIndex st - 1) st
    else if loop st then playFromQueue (qlen st - 1) st
    else restarted st.
Proof.
  intros Hlen Ht. unfold playPrev. rewrite Ht.
  destruct (Z.eqb_spec (qlen st) 0); [lia|]. done.
Qed.



(** ** After stop *)

(** X6. [stop] empties the queue, clears the current track and the
    source of the media element and hides the mini-player, and keeps the
    shuffle and loop modes, the registered playlists and the id counter.
    In the state it leaves, [pause], [seek], [playNext], [playPrev], a
    click on a queue row, a second [stop] and a late waveform change
    nothing. *)
Theorem stop_leaves_nothing_to_play (st : State) :
  let s := stop st in
  (queue s = [] /\ queueIndex s = 0 /\ currentTrack s = None /\
   isPlaying s = false /\ paused (audio s) = true /\ a_src (audio s) = "" /\
   miniPlayerVisible s = false) /\
  (shuffle s = shuffle st /\ loop s = loop st /\ playlists s = playlists st /\
   queueIdCounter s = queueIdCounter st) /\
  (pause s = s /\ (forall percent, seek percent s = s) /\
   playNext s = s /\ playPrev s = s /\ (forall qi, playFromQueue qi s = s) /\
   stop s = s /\
   (forall src peaks duration, waveformLoaded src peaks duration s = s)).
Proof.
  intros s. split; [done|]. split; [done|].
  split_and!; try done.
  intros qi. by destruct qi.
Qed.

End ControllerMore.

(** * Further properties of the waveform loader *)

Module WaveformMore.
Import Waveform WaveformFacts WaveformRuns.
Import Waveform WaveformFacts WaveformRuns.

(** ** The bars of a decoded track *)

Lemma Qgtb_true x y : Controller.Qgtb x y = true <-> (y < x)%Q.
Proof.
  unfold Controller.Qgtb. rewrite negb_true_iff, <- not_true_iff_false.
  rewrite Qle_bool_iff. split; [apply Qnot_le_lt|apply Qlt_not_le].
Qed.

Lemma Qgtb_false x y : Controller.Qgtb x y = false <-> (x <= y)%Q.
Proof.
  unfold Controller.Qgtb. rewrite negb_false_iff. apply Qle_bool_iff.
Qed.

Section RunningMaximum.
Variable g : Q -> Q.

Lemma running_max_ge_start l m : (m <= foldl (keep_larger g) m l)%Q.
Proof.
  revert m. induction l as [|x l IH]; intros m; simpl; [apply Qle_refl|].
  eapply Qle_trans; [|apply IH]. unfold keep_larger.
  destruct (Controller.Qgtb (g x) m) eqn:E; [|apply Qle_refl].
  apply Qgtb_true in E. by apply Qlt_le_weak.
Qed.

Lemma running_max_ge_elem l m x :
  x ∈ l -> (g x <= foldl (keep_larger g) m l)%Q.
Proof.
  revert m. induction l as [|y l IH]; intros m Hx; [by apply elem_of_nil in Hx|].
  apply elem_of_cons in Hx as [->|Hx]; simpl; [|by apply IH].
  eapply Qle_trans; [|apply running_max_ge_start]. unfold keep_larger.
  destruct (Controller.Qgtb (g y) m) eqn:E; [apply Qle_refl|].
  by apply Qgtb_false in E.
Qed.

Lemma running_max_attained l m :
  foldl (keep_larger g) m l = m \/ exists x, x ∈ l /\ foldl (keep_larger g) m l = g x.
Proof.
  revert m. induction l as [|y l IH]; intros m; simpl; [by left|].
  destruct (IH (keep_larger g m y)) as [->|(x & Hx & ->)].
  - unfold keep_larger. destruct (Controller.Qgtb (g y) m); [|by left].
    right. exists y. split; [apply elem_of_cons; by left|done].
  - right. exists x. split; [apply elem_of_cons; by right|done].
Qed.

Lemma running_max_silent l m :
  Forall (fun x => (g x <= m)%Q) l -> foldl (keep_larger g) m l = m.
Proof.
  induction 1 as [|x l Hx _ IH]; simpl; [done|].
  unfold keep_larger at 2. apply Qgtb_false in Hx. by rewrite Hx.
Qed.

End RunningMaximum.

Lemma block_peak_running block :
  block_peak block = foldl (keep_larger Qabs) 0%Q block.
Proof. done. Qed.

Lemma max_peak_running ps :
  max_peak ps = foldl (keep_larger (fun p => p)) 0%Q ps.
Proof. done. Qed.

Lemma block_peak_nonneg block : (0 <= block_peak block)%Q.
Proof. rewrite block_peak_running. apply running_max_ge_start. Qed.

Lemma block_peak_silent block :
  Forall (fun x => x == 0)%Q block -> block_peak block = 0%Q.
Proof.
  intros H. rewrite block_peak_running. apply running_max_silent.
  eapply Forall_impl; [exact H|]. intros x Hx; simpl.
  rewrite Hx. apply Qle_refl.
Qed.

Lemma compute_peaks_unfold rawData barCount :
  compute_peaks rawData barCount =
    (fun p => if Controller.Qgtb (max_peak (raw_peaks rawData barCount)) 0
              then (p / max_peak (raw_peaks rawData barCount))%Q
              else (3 # 10)%Q) <$> raw_peaks rawData barCount.
Proof. done. Qed.

Lemma raw_peaks_nonneg rawData barCount :
  Forall (fun p => 0 <= p)%Q (raw_peaks rawData barCount).
Proof.
  apply Forall_fmap, Forall_forall. intros i _. apply block_peak_nonneg.
Qed.

Lemma raw_peaks_silent rawData barCount :
  (length rawData < barCount)%nat \/ Forall (fun x => x == 0)%Q rawData ->
  Forall (fun p => p = 0%Q) (raw_peaks rawData barCount).
Proof.
  intros H. apply Forall_fmap, Forall_forall. intros i _. simpl.
  destruct H as [H|H].
  - by rewrite Nat.div_small.
  - apply block_peak_silent. apply Forall_take, Forall_drop, H.
Qed.

Lemma flat_bars (ps : list Q) :
  (fun _ : Q => (3 # 10)%Q) <$> ps = replicate (length ps) (3 # 10)%Q.
Proof. induction ps as [|p ps IH]; simpl; [done|by rewrite <- IH]. Qed.




(** ** What the cache holds *)

Lemma fresh_not_allocated env :
  objects env !! fresh (dom (objects env)) = None.
Proof. apply not_elem_of_dom, is_fresh. Qed.

Lemma cached_None src env :
  cache_allocated env -> cached src env = None ->
  waveformCache env !! src = None.
Proof.
  unfold cached. intros Ha Hc.
  destruct (waveformCache env !! src) as [l|] eqn:E; [|done].
  destruct (Ha _ _ E) as [d Hd]. simpl in Hc. by rewrite Hd in Hc.
Qed.

Lemma cached_new_object src env data ctx n :
  cache_allocated env ->
  cached src (mkEnv ctx (waveformCache env)
                (<[fresh (dom (objects env)) := data]> (objects env)) n)
  = cached src env.
Proof.
  intros Ha. unfold cached; simpl.
  destruct (waveformCache env !! src) as [l|] eqn:E; [simpl|done].
  apply lookup_insert_ne. intros <-.
  destruct (Ha _ _ E) as [d Hd]. by rewrite fresh_not_allocated in Hd.
Qed.

Lemma call_step src c env :
  cache_allocated env ->
  cache_allocated (call c env) /\
  cached src (call c env) =
    match cached src env with
    | Some d => Some d
    | None => if String.eqb (call_src c) src then decoded_result c else None
    end.
Proof.
  intros Ha. destruct c as [s b o]. unfold call, decoded_result; simpl.
  destruct (waveformCache env !! s) as [l|] eqn:Hs.
  { rewrite (getWaveformData_hit _ _ _ _ _ Hs); simpl. split; [done|].
    destruct (cached src env) as [d|] eqn:Hc; [done|].
    destruct (String.eqb_spec s src) as [->|]; [|done].
    apply cached_None in Hc; [|done]. by rewrite Hc in Hs. }
  destruct o as [buf|reason].
  - rewrite (getWaveformData_decoded _ _ _ _ Hs); simpl. split.
    + intros s' l'; simpl. destruct (decide (s' = s)) as [->|Hne].
      * rewrite lookup_insert_eq. intros [= <-]. rewrite lookup_insert_eq. by eexists.
      * rewrite lookup_insert_ne by done. intros Hl.
        destruct (Ha _ _ Hl) as [d Hd].
        rewrite lookup_insert_ne; [by eexists|].
        intros <-. by rewrite fresh_not_allocated in Hd.
    + destruct (String.eqb_spec s src) as [->|Hne].
      * assert (cached src env = None) as -> by (unfold cached; by rewrite Hs).
        unfold cached; simpl. rewrite lookup_insert_eq; simpl.
        by rewrite lookup_insert_eq.
      * transitivity (cached src env); [|by destruct (cached src env)].
        unfold cached; simpl. rewrite lookup_insert_ne by done.
        destruct (waveformCache env !! src) as [l|] eqn:E; [simpl|done].
        apply lookup_insert_ne. intros <-.
        destruct (Ha _ _ E) as [d Hd]. by rewrite fresh_not_allocated in Hd.
  - rewrite (getWaveformData_rejected _ _ _ _ Hs); simpl. split.
    + intros s' l' Hl; simpl in *. destruct (Ha _ _ Hl) as [d Hd].
      rewrite lookup_insert_ne; [by eexists|].
      intros <-. by rewrite fresh_not_allocated in Hd.
    + rewrite cached_new_object by done.
      destruct (cached src env) as [d|] eqn:Hc; [done|].
      by destruct (String.eqb (s) src).
Qed.

Lemma calls_cached src cs env :
  cache_allocated env ->
  cache_allocated (calls cs env) /\
  cached src (calls cs env) =
    match cached src env with
    | Some d => Some d
    | None => first_decoded src cs
    end.
Proof.
  revert env. induction cs as [|c cs IH]; intros env Ha.
  { split; [done|]. simpl. by destruct (cached src env). }
  destruct (call_step src c env Ha) as [Ha1 Hc1].
  destruct (IH (call c env) Ha1) as [Ha2 Hc2].
  split; [exact Ha2|].
  change (calls (c :: cs) env) with (calls cs (call c env)).
  rewrite Hc2, Hc1. unfold first_decoded; simpl.
  destruct (cached src env) as [d|]; [done|].
  destruct (String.eqb (call_src c) src); [|done].
  by destruct (decoded_result c).
Qed.

Lemma cache_allocated_initial : cache_allocated initial.
Proof. intros s l H. simpl in H. by rewrite lookup_empty in H. Qed.


End WaveformMore.

(** * Properties of the playlist views *)

Module HydrationFacts.
Import JsArray JsArrayFacts Controller ControllerFacts ControllerRuns.
Import ControllerMore Hydration.

Section Views.
Variable random : nat -> Q.

(** ** What the controller's operations do to the registry *)

Lemma playlists_playFromQueue qi st :
  playlists (playFromQueue qi st) = playlists st.
Proof. unfold playFromQueue. by repeat case_match. Qed.

Lemma playlists_addPlaylistToQueue ts s st :
  playlists (addPlaylistToQueue random ts s st) = playlists st.
Proof.
  unfold addPlaylistToQueue. destruct (assign_ids _ _ _) as [newTracks c].
  by repeat case_match.
Qed.

Lemma playlists_playTrack track playlistId sourceRoute st :
  playlists (playTrack random track playlistId sourceRoute st) = playlists st.
Proof.
  unfold playTrack. simpl. repeat case_match; try done.
  apply playlists_addPlaylistToQueue.
Qed.

Lemma playlists_exec op st id :
  from_player op = true ->
  is_Some (playlists (exec random op st) !! id) ->
  is_Some (playlists st !! id).
Proof.
  intros Hop. destruct op; try discriminate Hop; unfold exec;
    try (unfold togglePlay, pause, seek, toggleLoop, toggleQueueExpanded,
           onPlay, onPause, timeAdvanced, metadataLoaded, addToQueue,
           removeFromQueue, reorderQueue, toggleShuffle, waveformLoaded, stop;
         repeat case_match; done).
  - by rewrite playlists_playTrack.
  - by rewrite playlists_playFromQueue.
  - unfold playNext. repeat case_match; try done;
      by rewrite playlists_playFromQueue.
  - unfold playPrev. repeat case_match; try done;
      by rewrite playlists_playFromQueue.
  - by rewrite playlists_addPlaylistToQueue.
  - unfold unregisterPlaylist; simpl. intros [x Hx].
    apply lookup_delete_Some in Hx as [_ Hx]. by eexists.
  - unfold handleTrackEnd, playNext. repeat case_match; try done;
      by rewrite playlists_playFromQueue.
Qed.

Lemma playlists_clickPlay hash playlistId container index st :
  playlists (clickPlay random hash playlistId container index st)
  = playlists st.
Proof.
  unfold clickPlay. repeat case_match; try done.
  - unfold togglePlay. by repeat case_match.
  - apply playlists_playTrack.
Qed.

Lemma playlists_clickAdd container index st :
  playlists (clickAdd container index st) = playlists st.
Proof. unfold clickAdd. by case_match. Qed.

(** ** One view at a time *)

Lemma unregister_active_empty p id :
  page_ok p -> playlists (unregister_active p) !! id = None.
Proof.
  intros [Hne Hreg]. unfold unregister_active.
  destruct (activePlaylistId p) as [a|] eqn:Ha.
  - destruct (String.eqb_spec a "") as [->|Hna]; [done|].
    unfold unregisterPlaylist; simpl.
    destruct (decide (id = a)) as [->|Hid]; [apply lookup_delete_eq|].
    rewrite lookup_delete_ne by done.
    destruct (playlists (controller p) !! id) eqn:E; [|done].
    assert (activePlaylistId p = Some id) as Hid' by (apply Hreg; by eexists).
    rewrite Ha in Hid'. by injection Hid' as ->.
  - destruct (playlists (controller p) !! id) eqn:E; [|done].
    assert (activePlaylistId p = Some id) as Hid' by (apply Hreg; by eexists).
    by rewrite Ha in Hid'.
Qed.

Lemma createPlaylist_registry container playlistId p id :
  page_ok p ->
  playlists (controller (createPlaylist container playlistId p)) !! id =
    if decide (id = playlistId) then
      match container with
      | [] => None
      | _ => Some (mkPlaylist (tracksData container)
                              (Some ("playlist-el-" +:+ playlistId)))
      end
    else None.
Proof.
  intros Hok. unfold createPlaylist, tracksData.
  rewrite length_imap. destruct container as [|el container]; simpl.
  - rewrite unregister_active_empty by done. by case_decide.
  - case_decide as Hid.
    + subst id. apply lookup_insert_eq.
    + rewrite lookup_insert_ne by done. by apply unregister_active_empty.
Qed.

Lemma createPlaylist_active container playlistId p :
  activePlaylistId (createPlaylist container playlistId p) = Some playlistId.
Proof. unfold createPlaylist. by case_match. Qed.

Lemma page_ok_createPlaylist container playlistId p :
  playlistId <> "" -> page_ok p ->
  page_ok (createPlaylist container playlistId p).
Proof.
  intros Hne Hok. split.
  - rewrite createPlaylist_active. by intros [= ->].
  - intros id [x Hx]. rewrite createPlaylist_active.
    rewrite createPlaylist_registry in Hx by done.
    case_decide; [by subst|done].
Qed.

Lemma playlistId_of_nonempty hash idx : playlistId_of hash idx <> "".
Proof. done. Qed.

Lemma playlistId_of_inj hash i j :
  playlistId_of hash i = playlistId_of hash j -> i = j.
Proof.
  unfold playlistId_of. intros H.
  do 3 apply (inj (String.app _)) in H. by apply (inj pretty) in H.
Qed.

Lemma create_all_cons hash idx c cs p :
  create_all hash idx (c :: cs) p =
    create_all hash (S idx) cs (createPlaylist c (playlistId_of hash idx) p).
Proof. done. Qed.

Lemma create_all_snoc hash idx cs last p :
  create_all hash idx (cs ++ [last]) p =
    createPlaylist last (playlistId_of hash (idx + length cs))
      (create_all hash idx cs p).
Proof.
  revert idx p. induction cs as [|c cs IH]; intros idx p.
  - simpl. unfold create_all; simpl. by rewrite Nat.add_0_r.
  - change ((c :: cs) ++ [last]) with (c :: (cs ++ [last])).
    rewrite !create_all_cons, IH. simpl. by rewrite Nat.add_succ_r.
Qed.

Lemma page_ok_create_all hash idx cs p :
  page_ok p -> page_ok (create_all hash idx cs p).
Proof.
  revert idx p. induction cs as [|c cs IH]; intros idx p Hok; [done|].
  rewrite create_all_cons. apply IH, page_ok_createPlaylist; [|done].
  apply playlistId_of_nonempty.
Qed.

Lemma page_ok_cleanupAudio p : page_ok p -> page_ok (cleanupAudio p).
Proof.
  intros Hok. pose proof Hok as [Hne Hreg]. unfold cleanupAudio.
  destruct (activePlaylistId p) as [a|] eqn:Ha; [|done].
  destruct (String.eqb_spec a "") as [->|Hna]; [done|].
  split; [done|]. intros id [x Hx]. simpl in *.
  pose proof (unregister_active_empty p id Hok) as Hu.
  unfold unregister_active in Hu. rewrite Ha in Hu.
  destruct (String.eqb_spec a ""); [done|].
  unfold unregisterPlaylist in Hu. simpl in Hu. by rewrite Hu in Hx.
Qed.

Lemma page_ok_exec op p :
  page_op_ok op = true -> page_ok p -> page_ok (page_exec random op p).
Proof.
  intros Hop Hok. pose proof Hok as [Hne Hreg].
  destruct op as [hash cs| |hash pid c i|c i|op]; simpl.
  - by apply page_ok_create_all.
  - by apply page_ok_cleanupAudio.
  - split; [done|]. intros id; simpl. rewrite playlists_clickPlay. apply Hreg.
  - split; [done|]. intros id; simpl. rewrite playlists_clickAdd. apply Hreg.
  - split; [done|]. intros id; simpl. intros H. apply Hreg.
    by apply (playlists_exec op).
Qed.

Lemma page_ok_start : page_ok start.
Proof.
  split; [done|]. intros id [x Hx]. simpl in Hx. by rewrite lookup_empty in Hx.
Qed.

Lemma page_ok_run ops p :
  forallb page_op_ok ops = true -> page_ok p ->
  page_ok (page_run random ops p).
Proof.
  revert p. induction ops as [|op ops IH]; intros p Hops Hok; [done|].
  simpl in Hops. apply andb_true_iff in Hops as [Hop Hops].
  simpl. apply IH; [done|]. by apply page_ok_exec.
Qed.

(** X14. However the router mounts and unmounts pages and whatever the
    visitor and the player do in between, the controller knows at most
    one playlist, the one named by [activePlaylistId]. *)
Theorem one_view_registered (ops : list PageOp) :
  forallb page_op_ok ops = true ->
  let p := page_run random ops start in
  (forall id, is_Some (playlists (controller p) !! id) ->
              activePlaylistId p = Some id) /\
  (forall id1 id2 pl1 pl2,
     playlists (controller p) !! id1 = Some pl1 ->
     playlists (controller p) !! id2 = Some pl2 -> id1 = id2).
Proof.
  intros Hops p.
  destruct (page_ok_run ops start Hops page_ok_start) as [_ Hreg].
  split; [exact Hreg|]. intros id1 id2 pl1 pl2 H1 H2.
  assert (Some id1 = Some id2) as [= ->]; [|done].
  rewrite <- (Hreg id1), <- (Hreg id2); by eexists.
Qed.

(** ** Several views on one page *)

Lemma createPlaylist_playback container playlistId p :
  let p' := createPlaylist container playlistId p in
  queue (controller p') = queue (controller p) /\
  queueIndex (controller p') = queueIndex (controller p) /\
  currentTrack (controller p') = currentTrack (controller p) /\
  audio (controller p') = audio (controller p) /\
  shuffle (controller p') = shuffle (controller p).
Proof.
  unfold createPlaylist, unregister_active. by repeat case_match.
Qed.

Lemma create_all_playback hash idx cs p :
  let p' := create_all hash idx cs p in
  queue (controller p') = queue (controller p) /\
  queueIndex (controller p') = queueIndex (controller p) /\
  currentTrack (controller p') = currentTrack (controller p) /\
  audio (controller p') = audio (controller p) /\
  shuffle (controller p') = shuffle (controller p).
Proof.
  revert idx p. induction cs as [|c cs IH]; intros idx p; [done|].
  cbv zeta in *. rewrite create_all_cons.
  destruct (IH (S idx) (createPlaylist c (playlistId_of hash idx) p))
    as (-> & -> & -> & -> & ->).
  apply createPlaylist_playback.
Qed.

Lemma tracksData_lookup container (index : nat) el :
  container !! index = Some el ->
  tracksData container !! index =
    Some (mkTrack (data_src el) (title_of index el) (Some (Z.of_nat index))
                  None None None None None None).
Proof. intros H. unfold tracksData. by rewrite list_lookup_imap, H. Qed.

(** X15. On a page with several playlist views only the last one stays
    registered: each [createPlaylist] unregisters the view made before
    it.  Mounting the views leaves the queue, the current track and the
    media element alone.  A click on a row of an earlier view then plays
    that track without queueing anything, while a click on a row of the
    last view, on an idle player, queues all of its tracks. *)
Theorem only_last_view_feeds_queue (ops : list PageOp) (hash : string)
    (cs : list (list TrackEl)) (last : list TrackEl) :
  forallb page_op_ok ops = true ->
  let before := page_run random ops start in
  let p := initPlaylists hash (cs ++ [last]) before in
  let lastId := playlistId_of hash (length cs) in
  activePlaylistId p = Some lastId /\
  (forall idx, (idx < length cs)%nat ->
     playlists (controller p) !! playlistId_of hash idx = None) /\
  (last <> [] ->
     playlists (controller p) !! lastId =
       Some (mkPlaylist (tracksData last) (Some ("playlist-el-" +:+ lastId)))) /\
  (queue (controller p) = queue (controller before) /\
   currentTrack (controller p) = currentTrack (controller before) /\
   audio (controller p) = audio (controller before)) /\
  (forall idx container index,
     (idx < length cs)%nat -> queue (controller p) = [] ->
     queue (clickPlay random hash (playlistId_of hash idx) container index
              (controller p)) = []) /\
  (forall index,
     unit_range random -> (index < length last)%nat ->
     queue (controller p) = [] -> currentTrack (controller p) = None ->
     length (queue (clickPlay random hash lastId last index (controller p)))
     = length last).
Proof.
  intros Hops before p lastId.
  assert (Hok : page_ok (create_all hash 0 cs before)).
  { apply page_ok_create_all, page_ok_run; [done|apply page_ok_start]. }
  assert (Hp : p = createPlaylist last lastId (create_all hash 0 cs before)).
  { unfold p, initPlaylists. by rewrite create_all_snoc. }
  assert (Hearlier : forall idx, (idx < length cs)%nat ->
            playlists (controller p) !! playlistId_of hash idx = None).
  { intros idx Hidx. rewrite Hp, createPlaylist_registry by done.
    case_decide as Heq; [|done].
    apply playlistId_of_inj in Heq. lia. }
  assert (Hlast : last <> [] ->
     playlists (controller p) !! lastId =
       Some (mkPlaylist (tracksData last) (Some ("playlist-el-" +:+ lastId)))).
  { intros Hne. rewrite Hp, createPlaylist_registry by done.
    case_decide; [|done]. by destruct last. }
  split; [by rewrite Hp, createPlaylist_active|].
  split; [exact Hearlier|]. split; [exact Hlast|]. split; [|split].
  - destruct (create_all_playback hash 0 (cs ++ [last]) before)
      as (Hq & _ & Hc & Ha & _).
    unfold p, initPlaylists. by rewrite Hq, Hc, Ha.
  - intros idx container index Hidx Hq. unfold clickPlay.
    destruct (tracksData container !! index) as [track|]; [|done].
    destruct (is_current _ _ _).
    + unfold togglePlay. by repeat case_match.
    + unfold playTrack. by rewrite (Hearlier idx Hidx).
  - intros index Hr Hidx Hq Hc.
    destruct (lookup_lt_is_Some_2 last index Hidx) as [el Hel].
    unfold clickPlay. rewrite (tracksData_lookup _ _ _ Hel); simpl.
    unfold is_current. rewrite Hc.
    assert (Hne : last <> []) by (by destruct last).
    unfold playTrack, qlen. rewrite (Hlast Hne), Hq. simpl.
    rewrite (queue_addPlaylistToQueue_perm random (tracksData last)
               (Some (Z.of_nat index)) (controller p) Hr).
    + rewrite length_imap. unfold tracksData. by rewrite length_imap.
    + intros _. simpl. unfold tracksData. rewrite length_imap. lia.
Qed.

(** ** The play button of a row *)

(** X16. The play button of a row whose track is not the current one
    starts that track; once it plays, a second click on the same row
    pauses it where it is and a third resumes it, with the current
    track, the queue and [queueIndex] untouched. *)
Theorem second_click_pauses (hash playlistId : string)
    (container : list TrackEl) (index : nat) (el : TrackEl) (st : State) :
  container !! index = Some el -> data_src el <> "" ->
  is_current index (data_src el) st = false ->
  let click := clickPlay random hash playlistId container index in
  let s1 := click st in
  let s2 := click (onPlay s1) in
  let s3 := click (onPause s2) in
  (is_current index (data_src el) s1 = true /\
   a_src (audio s1) = data_src el /\ paused (audio s1) = false) /\
  (audio s2 = audio_pause (audio s1) /\ currentTrack s2 = currentTrack s1 /\
   queue s2 = queue s1 /\ queueIndex s2 = queueIndex s1) /\
  (audio s3 = audio s1 /\ currentTrack s3 = currentTrack s1 /\
   queue s3 = queue s1 /\ queueIndex s3 = queueIndex s1).
Proof.
  intros Hel Hsrc Hcur click s1 s2 s3.
  set (track := mkTrack (data_src el) (title_of index el) (Some (Z.of_nat index))
                        None None None None None None).
  assert (Hclick : forall s, click s =
            if is_current index (data_src el) s then togglePlay s
            else playTrack random track playlistId (sourceRoute_of hash) s).
  { intros s. unfold click, clickPlay.
    by rewrite (tracksData_lookup _ _ _ Hel). }
  assert (H1 : s1 = playTrack random track playlistId (sourceRoute_of hash) st).
  { unfold s1. by rewrite Hclick, Hcur. }
  assert (Hc1 : is_current index (data_src el) s1 = true).
  { rewrite H1. unfold is_current, playTrack; simpl.
    by rewrite Z.eqb_refl, String.eqb_refl. }
  assert (Ha1 : a_src (audio s1) = data_src el) by (by rewrite H1).
  assert (Hp1 : paused (audio s1) = false) by (by rewrite H1).
  assert (Hne : String.eqb (data_src el) "" = false)
    by (by apply String.eqb_neq).
  assert (H2 : s2 = set_audio (audio_pause (audio s1)) (onPlay s1)).
  { unfold s2. rewrite Hclick.
    assert (is_current index (data_src el) (onPlay s1) = true) as -> by exact Hc1.
    unfold togglePlay. simpl. by rewrite Ha1, Hne. }
  assert (H3 : s3 = set_audio (audio_play (audio s2)) (onPause s2)).
  { unfold s3. rewrite Hclick.
    assert (is_current index (data_src el) (onPause s2) = true) as ->
      by (rewrite H2; exact Hc1).
    unfold togglePlay. rewrite H2. simpl. by rewrite Ha1, Hne. }
  split; [done|]. split.
  - by rewrite H2.
  - rewrite H3, H2. simpl. split; [|done].
    unfold audio_play; simpl. rewrite <- Hp1. by destruct (audio s1).
Qed.

End Views.

(** The theorem on a visit: a page with two views is mounted, a row of
    the second is started, and the visitor moves to another page. *)
Lemma one_view_registered_witness :
  activePlaylistId
    (page_run Samples.half
       [InitPlaylists "#/music" two_views;
        ClickPlay "#/music" "playlist---music-1" (two_views !!! 1%nat) 0;
        Player OnPlay; CleanupAudio;
        InitPlaylists "#/about" [[mkTrackEl "e.mp3" None]]] start)
  = Some "playlist---about-0".
Proof.
  apply (one_view_registered Samples.half
    [InitPlaylists "#/music" two_views;
     ClickPlay "#/music" "playlist---music-1" (two_views !!! 1%nat) 0;
     Player OnPlay; CleanupAudio;
     InitPlaylists "#/about" [[mkTrackEl "e.mp3" None]]]);
    [reflexivity|].
  vm_compute. eexists. reflexivity.
Defined.

(** The theorem on a page with two views. *)
Lemma only_last_view_feeds_queue_witness :
  let p := initPlaylists "#/music" two_views start in
  playlists (controller p) !! playlistId_of "#/music" 0 = None /\
  queue (clickPlay Samples.half "#/music" (playlistId_of "#/music" 0)
           (two_views !!! 0%nat) 1 (controller p)) = [].
Proof.
  intros p.
  destruct (only_last_view_feeds_queue Samples.half [] "#/music"
              [[mkTrackEl "a.mp3" (Some "A"); mkTrackEl "b.mp3" None]]
              [mkTrackEl "c.mp3" (Some "C"); mkTrackEl "d.mp3" (Some "")]
              eq_refl) as (_ & Hreg & _ & _ & Hq & _).
  split.
  - apply (Hreg 0%nat). simpl. lia.
  - apply (Hq 0%nat); [simpl; lia|reflexivity].
Defined.

(** The theorem on the first row of a view. *)
Lemma second_click_pauses_witness :
  let click := clickPlay Samples.half "#/music" "playlist---music-0"
                 [mkTrackEl "a.mp3" (Some "A")] 0 in
  paused (audio (click (onPlay (click init)))) = true.
Proof.
  intros click.
  destruct (second_click_pauses Samples.half "#/music" "playlist---music-0"
              [mkTrackEl "a.mp3" (Some "A")] 0 (mkTrackEl "a.mp3" (Some "A"))
              init eq_refl ltac:(discriminate) eq_refl)
    as (_ & (Ha & _) & _).
  unfold click. by rewrite Ha.
Defined.

End HydrationFacts.
